(** * invomodo service worker (sw.js): a shallow embedding and its properties

    The worker is embedded as functions over an explicit world: the cache
    storage of the platform, the chronological trace of observable effects
    (network fetches, console output, lifecycle requests, replies posted to
    a message port) and a clock counting cache-storage operations.  The
    network and the failures of the cache storage belong to the
    environment.  Promises are computations in a state-and-rejection monad:
    an [await] is a bind, a [try]/[catch] is [try_catch], a promise that is
    kept as an object holds its settlement. *)

From Stdlib Require Import String Ascii List Bool Arith NArith ZArith Lia.
Import ListNotations.
Open Scope string_scope.
Open Scope list_scope.

(** ** JavaScript string predicates *)

(** [s.startsWith(p)] *)
Fixpoint startsWith (s p : string) {struct p} : bool :=
  match p with
  | EmptyString => true
  | String a p' =>
      match s with
      | EmptyString => false
      | String b s' => Ascii.eqb a b && startsWith s' p'
      end
  end.

(** [s.includes(sub)]: [sub] occurs at some offset of [s]. *)
Fixpoint includes (s sub : string) : bool :=
  startsWith s sub ||
  match s with
  | EmptyString => false
  | String _ s' => includes s' sub
  end.

(** [s.endsWith(suf)]: some tail of [s] is [suf]. *)
Fixpoint endsWith (s suf : string) : bool :=
  String.eqb s suf ||
  match s with
  | EmptyString => false
  | String _ s' => endsWith s' suf
  end.

(** [array.includes(x)] on an array of strings. *)
Definition array_includes (l : list string) (x : string) : bool :=
  existsb (String.eqb x) l.

(** ** Configuration (sw.js, lines 1-27) *)

Definition CACHE_NAME : string := "invomodo-v1.0.0".
Definition STATIC_CACHE_NAME : string := "invomodo-static-v1.0.0".
Definition RUNTIME_CACHE_NAME : string := "invomodo-runtime-v1.0.0".

Definition STATIC_ASSETS : list string :=
  [ "/";
    "/index.html";
    "/manifest.json";
    "/firebase_auth.js";
    "/pkg/secure_pwa.js";
    "/pkg/secure_pwa_bg.wasm" ].

Definition NETWORK_FIRST_ROUTES : list string := [ "/api/"; "/auth/" ].

Definition CACHE_FIRST_ROUTES : list string := [ "/static/"; "/icons/"; "/assets/" ].

(** ** Requests and responses *)

Record Request : Type := mkRequest {
  url : string;
  method : string;
  mode : string
}.

Record Response : Type := mkResponse {
  status : Z;
  statusText : string;
  headers : list (string * string);
  body : string
}.

(** [response.ok]: the status is in the range 200-299. *)
Definition ok (r : Response) : bool :=
  (200 <=? status r)%Z && (status r <=? 299)%Z.

(** The options object of [new Response(body, init)]. *)
Record ResponseInit : Type := mkInit {
  init_status : option Z;
  init_statusText : option string;
  init_headers : list (string * string)
}.

Definition has_header (name : string) (hs : list (string * string)) : bool :=
  existsb (fun h => String.eqb (fst h) name) hs.

(** [new Response(body, init)] with a string body: status 200 and an empty
    status text unless given, and a text/plain content type unless the
    init names one. *)
Definition new_Response (b : string) (init : ResponseInit) : Response :=
  {| status := match init_status init with Some s => s | None => 200%Z end;
     statusText := match init_statusText init with Some t => t | None => "" end;
     headers :=
       if has_header "Content-Type" (init_headers init)
       then init_headers init
       else init_headers init ++ [("Content-Type", "text/plain;charset=UTF-8")];
     body := b |}.

(** [(await response.blob()).size]: the number of bytes of the body. *)
Definition blob_size (r : Response) : nat := String.length (body r).

(** ** The cache storage of the platform *)

(** A partition maps request URLs to responses, in insertion order. *)
Definition Cache : Type := list (string * Response).

(** The storage maps partition names to partitions, in creation order. *)
Definition CacheStorage : Type := list (string * Cache).

Fixpoint cache_lookup (c : Cache) (u : string) : option Response :=
  match c with
  | [] => None
  | (k, r) :: c' => if String.eqb k u then Some r else cache_lookup c' u
  end.

(** [cache.put]: an entry for the same URL is removed and the new pair is
    appended, so an update replaces the entry wholesale. *)
Definition cache_insert (c : Cache) (u : string) (r : Response) : Cache :=
  filter (fun p => negb (String.eqb (fst p) u)) c ++ [(u, r)].

Fixpoint storage_find (cs : CacheStorage) (name : string) : option Cache :=
  match cs with
  | [] => None
  | (n, c) :: cs' => if String.eqb n name then Some c else storage_find cs' name
  end.

(** [caches.match]: the first hit, searching the partitions in creation
    order. *)
Fixpoint storage_match (cs : CacheStorage) (u : string) : option Response :=
  match cs with
  | [] => None
  | (_, c) :: cs' =>
      match cache_lookup c u with
      | Some r => Some r
      | None => storage_match cs' u
      end
  end.

(** [caches.open] creates the partition when it does not exist yet. *)
Definition storage_open (cs : CacheStorage) (name : string) : CacheStorage :=
  match storage_find cs name with
  | Some _ => cs
  | None => cs ++ [(name, [])]
  end.

Fixpoint storage_update (cs : CacheStorage) (name : string) (f : Cache -> Cache)
  : CacheStorage :=
  match cs with
  | [] => []
  | (n, c) :: cs' =>
      if String.eqb n name then (n, f c) :: cs'
      else (n, c) :: storage_update cs' name f
  end.

Definition storage_delete (cs : CacheStorage) (name : string) : CacheStorage :=
  filter (fun p => negb (String.eqb (fst p) name)) cs.

Definition storage_names (cs : CacheStorage) : list string := map fst cs.

(** Names are unique in the storage, URLs are unique in a partition. *)
Definition cache_wf (c : Cache) : Prop := NoDup (map fst c).

Definition storage_wf (cs : CacheStorage) : Prop :=
  NoDup (storage_names cs) /\ Forall (fun p => cache_wf (snd p)) cs.

(** ** Values, replies and observable events *)

(** What a strategy hands to [event.respondWith]. *)
Inductive JsVal : Type :=
  | VUndefined
  | VNull
  | VResponse (r : Response).

Definition truthy (v : JsVal) : bool :=
  match v with
  | VUndefined | VNull => false
  | VResponse _ => true
  end.

Definition of_lookup (o : option Response) : JsVal :=
  match o with
  | Some r => VResponse r
  | None => VUndefined
  end.

Record CacheDetail : Type := mkDetail {
  itemCount : nat;
  size : nat
}.

Record CacheStatus : Type := mkStatus {
  cacheNames : list string;
  totalSize : nat;
  cacheDetails : list (string * CacheDetail)
}.

(** The two shapes [getCacheStatus] resolves to. *)
Inductive StatusReply : Type :=
  | StatusOk (s : CacheStatus)
  | StatusError (message : string).

(** ** Plain objects used as maps

    An object is the list of its own enumerable properties in the order in
    which they are enumerated: the array indices in ascending order, then
    the other keys in the order of their creation. *)

Definition digit_value (c : ascii) : option N :=
  let n := N_of_ascii c in
  if (N.leb 48 n && N.leb n 57)%bool then Some (n - 48)%N else None.

Fixpoint decimal_value (s : string) (acc : N) : option N :=
  match s with
  | EmptyString => Some acc
  | String c s' =>
      match digit_value c with
      | Some d => decimal_value s' (10 * acc + d)%N
      | None => None
      end
  end.

(** The number a key stands for when it is an array index: the canonical
    decimal numeral, without leading zero, of a number below 2^32 - 1. *)
Definition array_index (key : string) : option N :=
  match key with
  | EmptyString => None
  | String c rest =>
      if (Ascii.eqb c "0" && negb (String.eqb rest ""))%bool then None
      else
        match decimal_value key 0 with
        | Some n => if N.ltb n 4294967295 then Some n else None
        | None => None
        end
  end.

(** [obj[key]] on own properties. *)
Fixpoint obj_get {V : Type} (o : list (string * V)) (key : string) : option V :=
  match o with
  | [] => None
  | (k, v) :: o' => if String.eqb k key then Some v else obj_get o' key
  end.

(** The value of an existing own property is replaced in place. *)
Fixpoint obj_replace {V : Type} (o : list (string * V)) (key : string) (v : V)
  : option (list (string * V)) :=
  match o with
  | [] => None
  | (k, v') :: o' =>
      if String.eqb k key then Some ((k, v) :: o')
      else option_map (cons (k, v')) (obj_replace o' key v)
  end.

(** A new array index goes before the first key that is no smaller array
    index. *)
Fixpoint obj_insert_index {V : Type} (o : list (string * V)) (n : N) (key : string)
  (v : V) : list (string * V) :=
  match o with
  | [] => [(key, v)]
  | (k, v') :: o' =>
      match array_index k with
      | Some m =>
          if N.ltb m n then (k, v') :: obj_insert_index o' n key v
          else (key, v) :: o
      | None => (key, v) :: o
      end
  end.

(** [obj[key] = v] where [obj] is a plain object and [v] an object.  The
    key [__proto__] is the accessor of the prototype: assigning to it
    replaces the prototype and creates no own property. *)
Definition obj_set {V : Type} (o : list (string * V)) (key : string) (v : V)
  : list (string * V) :=
  if String.eqb key "__proto__" then o
  else
    match obj_replace o key v with
    | Some o' => o'
    | None =>
        match array_index key with
        | Some n => obj_insert_index o n key v
        | None => o ++ [(key, v)]
        end
    end.

Inductive Level : Type := LLog | LWarn | LError.

Inductive Event : Type :=
  | EvFetch (u : string)
  | EvConsole (l : Level) (text : string) (args : list string)
  | EvSkipWaiting
  | EvClientsClaim
  | EvPostMessage (reply : StatusReply).

(** ** The world and the environment *)

Record World : Type := mkWorld {
  caches : CacheStorage;
  trace : list Event;
  clock : nat
}.

(** The operations of the cache storage and of a partition:
    [caches.match], [caches.open], [caches.keys], [caches.delete], the
    write of [cache.put] and of [cache.addAll], [cache.keys] and
    [cache.match]. *)
Inductive StorageOp : Type :=
  | OpMatch
  | OpOpen
  | OpKeys
  | OpDelete
  | OpPut
  | OpCacheKeys
  | OpCacheMatch.

(** [network u] is the response the network gives for [u], or [None] when
    the fetch rejects.  [fault n op] is the error with which the operation
    [op] rejects when it is the [n]-th cache-storage operation, if it does
    (quota, corruption). *)
Record Env : Type := mkEnv {
  origin : string;
  network : string -> option Response;
  fault : nat -> StorageOp -> option string
}.

(** No cache-storage operation fails. *)
Definition healthy (e : Env) : Prop := forall n op, fault e n op = None.

(** Only reads of single entries ([cache.match]) fail. *)
Definition reads_fail_only (e : Env) : Prop :=
  forall n op error, fault e n op = Some error -> op = OpCacheMatch.

(** ** Promises *)

Inductive Outcome (A : Type) : Type :=
  | Fulfilled (a : A)
  | Rejected (error : string).
Arguments Fulfilled {A} a.
Arguments Rejected {A} error.

Definition M (A : Type) : Type := World -> Outcome A * World.

Definition ret {A : Type} (a : A) : M A := fun w => (Fulfilled a, w).

Definition reject {A : Type} (error : string) : M A := fun w => (Rejected error, w).

Definition bind {A B : Type} (m : M A) (k : A -> M B) : M B :=
  fun w =>
    match m w with
    | (Fulfilled a, w') => k a w'
    | (Rejected error, w') => (Rejected error, w')
    end.

Definition try_catch {A : Type} (m : M A) (handler : string -> M A) : M A :=
  fun w =>
    match m w with
    | (Fulfilled a, w') => (Fulfilled a, w')
    | (Rejected error, w') => handler error w'
    end.

(** A promise that is created and kept as an object: the operation runs,
    its settlement is what the object holds. *)
Definition promise {A : Type} (m : M A) : M (Outcome A) :=
  fun w => let (o, w') := m w in (Fulfilled o, w').

(** A promise that is created and dropped: its effects happen, its
    settlement is observed by nobody.  The effects are those up to the
    settlement, which the code that dropped the promise does not wait
    for. *)
Definition detached {A : Type} (m : M A) : M unit :=
  fun w => let (_, w') := m w in (Fulfilled tt, w').

Definition settle {A : Type} (o : Outcome A) : M A :=
  match o with
  | Fulfilled a => ret a
  | Rejected error => reject error
  end.

(** [Promise.all]: every operation of the array has been started, so all of
    them run; the result rejects with the first rejection. *)
Fixpoint promise_all {A : Type} (ps : list (M A)) : M (list A) :=
  fun w =>
    match ps with
    | [] => (Fulfilled [], w)
    | p :: ps' =>
        let (o, w1) := p w in
        let (os, w2) := promise_all ps' w1 in
        (match o, os with
         | Fulfilled a, Fulfilled l => Fulfilled (a :: l)
         | Rejected error, _ => Rejected error
         | Fulfilled _, Rejected error => Rejected error
         end, w2)
    end.

Declare Scope promise_scope.
Delimit Scope promise_scope with promise.
Notation "x <- m ;; k" := (bind m (fun x => k))
  (at level 61, m at next level, right associativity) : promise_scope.
Notation "m ;;; k" := (bind m (fun _ => k))
  (at level 61, right associativity) : promise_scope.
Open Scope promise_scope.

(** An operand of [||]: a plain value, or a promise object. *)
Inductive Operand : Type :=
  | OVal (v : JsVal)
  | OPromise (p : Outcome JsVal).

(** An object is truthy, whatever the promise settles to. *)
Definition operand_truthy (o : Operand) : bool :=
  match o with
  | OVal v => truthy v
  | OPromise _ => true
  end.

(** [a || b] *)
Definition js_or (a b : Operand) : Operand :=
  if operand_truthy a then a else b.

(** [return x] in an async function: a promise is adopted. *)
Definition async_return (o : Operand) : M JsVal :=
  match o with
  | OVal v => ret v
  | OPromise p => settle p
  end.

(** ** The offline page (sw.js, lines 209-298)

    The template literal of [getOfflineHTML], split at its double quotes. *)

Definition dquote : string := String (Ascii.ascii_of_nat 34) EmptyString.

Definition getOfflineHTML : string :=
  String.concat dquote
    [ "
    <!DOCTYPE html>
    <html lang=";
      "en";
      ">
    <head>
        <meta charset=";
      "UTF-8";
      ">
        <meta name=";
      "viewport";
      " content=";
      "width=device-width, initial-scale=1.0";
      ">
        <title>Offline - SecurePWA</title>
        <style>
            body { 
                font-family: -apple-system, BlinkMacSystemFont, 'Segoe UI', Roboto, sans-serif;
                margin: 0; 
                padding: 0; 
                background: linear-gradient(135deg, #667eea 0%, #764ba2 100%);
                min-height: 100vh;
                display: flex;
                align-items: center;
                justify-content: center;
                color: white;
                text-align: center;
            }
            .container { 
                max-width: 400px; 
                padding: 2rem;
                background: rgba(255, 255, 255, 0.1);
                backdrop-filter: blur(10px);
                border-radius: 20px;
                border: 1px solid rgba(255, 255, 255, 0.2);
            }
            h1 { 
                font-size: 2.5rem; 
                margin-bottom: 1rem;
                font-weight: 300;
            }
            p { 
                font-size: 1.1rem; 
                line-height: 1.6;
                margin-bottom: 2rem;
                opacity: 0.9;
            }
            .retry-btn {
                background: rgba(255, 255, 255, 0.2);
                border: 1px solid rgba(255, 255, 255, 0.3);
                color: white;
                padding: 12px 24px;
                border-radius: 25px;
                cursor: pointer;
                font-size: 1rem;
                transition: all 0.3s ease;
            }
            .retry-btn:hover {
                background: rgba(255, 255, 255, 0.3);
                transform: translateY(-2px);
            }
            .offline-icon {
                font-size: 4rem;
                margin-bottom: 1rem;
                animation: pulse 2s infinite;
            }
            @keyframes pulse {
                0% { opacity: 1; }
                50% { opacity: 0.5; }
                100% { opacity: 1; }
            }
        </style>
    </head>
    <body>
        <div class=";
      "container";
      ">
            <div class=";
      "offline-icon";
      ">📡</div>
            <h1>You're Offline</h1>
            <p>It looks like you're not connected to the internet. Some features may not be available, but you can still use cached content.</p>
            <button class=";
      "retry-btn";
      " onclick=";
      "location.reload()";
      ">Try Again</button>
        </div>
        
        <script>
            // Auto-retry when connection is restored
            window.addEventListener('online', () => {
                location.reload();
            });
            
            // Show connection status
            if (navigator.onLine) {
                document.querySelector('p').textContent = 'Connection restored! Reloading...';
                setTimeout(() => location.reload(), 1000);
            }
        </script>
    </body>
    </html>
  " ].

(** ** Platform primitives *)

Definition CacheHandle : Type := string.

Definition emit (ev : Event) : M unit :=
  fun w => (Fulfilled tt,
            {| caches := caches w; trace := trace w ++ [ev]; clock := clock w |}).

Definition console_log (text : string) (args : list string) : M unit :=
  emit (EvConsole LLog text args).

Definition console_warn (text : string) (args : list string) : M unit :=
  emit (EvConsole LWarn text args).

Definition console_error (text : string) (args : list string) : M unit :=
  emit (EvConsole LError text args).

(** [self.skipWaiting()] and [self.clients.claim()] are requests to the
    platform; they are recorded in the trace. *)
Definition skipWaiting : M unit := emit EvSkipWaiting.

Definition clients_claim : M unit := emit EvClientsClaim.

Definition postMessage (reply : StatusReply) : M unit := emit (EvPostMessage reply).

Definition store_batch (batch : list (string * Response)) (c : Cache) : Cache :=
  fold_left (fun acc p => cache_insert acc (fst p) (snd p)) batch c.

Section Worker.

Variable e : Env.

(** A URL given as a string is resolved against the origin of the worker;
    the URL of a [Request] object is absolute already, and the operations
    below take such URLs.  The resolution is that of the platform for the
    root-relative paths without dot segments ([plain_path] below), as are
    the declared static assets and the path of the offline page; what is
    proved of other strings given as URLs is proved of this function
    only, so the theorems on URLs that a page sends ask for plain paths. *)
Definition resolve (u : string) : string :=
  if startsWith u "/" then String.append (origin e) u else u.

Definition fetch (u : string) : M Response :=
  fun w =>
    let w' := {| caches := caches w; trace := trace w ++ [EvFetch u]; clock := clock w |} in
    match network e u with
    | Some r => (Fulfilled r, w')
    | None => (Rejected "Failed to fetch", w')
    end.

(** One operation of the cache storage: it advances the clock, and rejects
    when the environment makes it fail. *)
Definition storage_op {A : Type} (op : StorageOp)
  (f : CacheStorage -> A * CacheStorage) : M A :=
  fun w =>
    match fault e (clock w) op with
    | Some error =>
        (Rejected error,
         {| caches := caches w; trace := trace w; clock := S (clock w) |})
    | None =>
        let (a, cs) := f (caches w) in
        (Fulfilled a, {| caches := cs; trace := trace w; clock := S (clock w) |})
    end.

Definition caches_match (u : string) : M JsVal :=
  storage_op OpMatch (fun cs => (of_lookup (storage_match cs u), cs)).

Definition caches_open (name : string) : M CacheHandle :=
  storage_op OpOpen (fun cs => (name, storage_open cs name)).

Definition caches_keys : M (list string) :=
  storage_op OpKeys (fun cs => (storage_names cs, cs)).

Definition caches_delete (name : string) : M bool :=
  storage_op OpDelete (fun cs =>
    (match storage_find cs name with Some _ => true | None => false end,
     storage_delete cs name)).

Definition partition_of (cs : CacheStorage) (cache : CacheHandle) : Cache :=
  match storage_find cs cache with
  | Some c => c
  | None => []
  end.

Definition cache_put (cache : CacheHandle) (u : string) (r : Response) : M unit :=
  storage_op OpPut (fun cs =>
    (tt, storage_update cs cache (fun c => cache_insert c u r))).

Definition cache_keys (cache : CacheHandle) : M (list string) :=
  storage_op OpCacheKeys (fun cs => (map fst (partition_of cs cache), cs)).

Definition cache_match (cache : CacheHandle) (u : string) : M JsVal :=
  storage_op OpCacheMatch (fun cs => (of_lookup (cache_lookup (partition_of cs cache) u), cs)).

(** [cache.addAll(urls)]: every URL is fetched; the batch is stored only
    when every fetch gave an ok response, and rejects otherwise without
    storing anything. *)
Definition fetch_batch (urls : list string) : M (list (string * Response)) :=
  promise_all
    (map (fun u =>
            r <- fetch (resolve u) ;;
            if ok r then ret (resolve u, r) else reject "Request failed")
         urls).

Definition cache_addAll (cache : CacheHandle) (urls : list string) : M unit :=
  batch <- fetch_batch urls ;;
  storage_op OpPut (fun cs => (tt, storage_update cs cache (store_batch batch))).

(** ** Routing helpers (sw.js, lines 196-206) *)

Definition isNetworkFirstRoute (u : string) : bool :=
  existsb (fun route => includes u route) NETWORK_FIRST_ROUTES.

Definition isCacheFirstRoute (u : string) : bool :=
  existsb (fun route => includes u route) CACHE_FIRST_ROUTES.

Definition isStaticAsset (u : string) : bool :=
  existsb (fun asset => endsWith u asset) STATIC_ASSETS.

(** ** Strategies (sw.js, lines 107-193) *)

Definition offline_response : Response :=
  new_Response getOfflineHTML
    {| init_status := None; init_statusText := None;
       init_headers := [("Content-Type", "text/html")] |}.

Definition unavailable_response : Response :=
  new_Response "Offline - Resource not available"
    {| init_status := Some 503%Z; init_statusText := Some "Service Unavailable";
       init_headers := [] |}.

Definition not_found_response : Response :=
  new_Response "Resource not available"
    {| init_status := Some 404%Z; init_statusText := Some "Not Found";
       init_headers := [] |}.

Definition networkFirstStrategy (request : Request) : M JsVal :=
  try_catch
    (networkResponse <- fetch (url request) ;;
     (if ok networkResponse then
        cache <- caches_open RUNTIME_CACHE_NAME ;;
        detached (cache_put cache (url request) networkResponse)
      else ret tt) ;;;
     ret (VResponse networkResponse))
    (fun error =>
       console_log "Network request failed, falling back to cache:" [url request] ;;;
       cachedResponse <- caches_match (url request) ;;
       if truthy cachedResponse then ret cachedResponse
       else if String.eqb (mode request) "navigate" then
         offlinePage <- promise (caches_match (resolve "/offline.html")) ;;
         async_return (js_or (OPromise offlinePage) (OVal (VResponse offline_response)))
       else ret (VResponse unavailable_response)).

Definition cacheFirstStrategy (request : Request) : M JsVal :=
  cachedResponse <- caches_match (url request) ;;
  if truthy cachedResponse then ret cachedResponse
  else
    try_catch
      (networkResponse <- fetch (url request) ;;
       (if ok networkResponse then
          cache <- caches_open RUNTIME_CACHE_NAME ;;
          detached (cache_put cache (url request) networkResponse)
        else ret tt) ;;;
       ret (VResponse networkResponse))
      (fun error =>
         console_error "Failed to fetch resource:" [url request; error] ;;;
         ret (VResponse not_found_response)).

Definition cacheOnlyStrategy (request : Request) : M JsVal :=
  caches_match (url request).

Definition staleWhileRevalidateStrategy (request : Request) : M JsVal :=
  cachedResponse <- caches_match (url request) ;;
  networkResponsePromise <-
    promise
      (try_catch
         (networkResponse <- fetch (url request) ;;
          (if ok networkResponse then
             detached (c <- caches_open RUNTIME_CACHE_NAME ;;
                       cache_put c (url request) networkResponse)
           else ret tt) ;;;
          ret (VResponse networkResponse))
         (fun _ => ret VNull)) ;;
  async_return
    (js_or (js_or (OVal cachedResponse) (OPromise networkResponsePromise))
           (OVal (VResponse unavailable_response))).

(** ** The fetch listener (sw.js, lines 80-104) *)

Inductive Strategy : Type :=
  | NetworkFirst
  | CacheFirst
  | CacheOnly
  | StaleWhileRevalidate.

(** What the listener does with an intercepted request: it returns without
    responding, or it calls [event.respondWith] with one strategy. *)
Inductive Dispatch : Type :=
  | PassThrough
  | RespondWith (s : Strategy).

Definition fetch_listener (request : Request) : Dispatch :=
  if negb (String.eqb (method request) "GET") then PassThrough
  else if startsWith (url request) "chrome-extension://" then PassThrough
  else if isNetworkFirstRoute (url request) then RespondWith NetworkFirst
  else if isCacheFirstRoute (url request) then RespondWith CacheFirst
  else if isStaticAsset (url request) then RespondWith CacheOnly
  else RespondWith StaleWhileRevalidate.

Definition run_strategy (s : Strategy) (request : Request) : M JsVal :=
  match s with
  | NetworkFirst => networkFirstStrategy request
  | CacheFirst => cacheFirstStrategy request
  | CacheOnly => cacheOnlyStrategy request
  | StaleWhileRevalidate => staleWhileRevalidateStrategy request
  end.

(** The promise handed to [event.respondWith], if any. *)
Definition handle_fetch (request : Request) : M (option JsVal) :=
  match fetch_listener request with
  | PassThrough => ret None
  | RespondWith s => v <- run_strategy s request ;; ret (Some v)
  end.

(** ** Lifecycle (sw.js, lines 30-77)

    Each listener is the promise it hands to [event.waitUntil]. *)

Definition install_listener : M unit :=
  console_log "Service Worker installing..." [] ;;;
  try_catch
    (cache <- caches_open STATIC_CACHE_NAME ;;
     console_log "Caching static assets..." [] ;;;
     cache_addAll cache STATIC_ASSETS ;;;
     skipWaiting)
    (fun error => console_error "Failed to cache static assets:" [error]).

(** The filter of the activation sweep. *)
Definition is_old_cache (cacheName : string) : bool :=
  startsWith cacheName "invomodo-" &&
  negb (array_includes [STATIC_CACHE_NAME; RUNTIME_CACHE_NAME] cacheName).

Definition activate_listener : M unit :=
  console_log "Service Worker activating..." [] ;;;
  try_catch
    (names <- caches_keys ;;
     promise_all
       (map (fun cacheName =>
               console_log "Deleting old cache:" [cacheName] ;;;
               caches_delete cacheName)
            (filter is_old_cache names)) ;;;
     clients_claim)
    (fun error => console_error "Failed to activate service worker:" [error]).

(** ** Administration (sw.js, lines 379-483) *)

Definition cacheUrls (urls : list string) : M unit :=
  try_catch
    (cache <- caches_open RUNTIME_CACHE_NAME ;;
     promise_all
       (map (fun u =>
               try_catch
                 (response <- fetch (resolve u) ;;
                  if ok response then
                    cache_put cache (resolve u) response ;;;
                    console_log "Cached:" [u]
                  else ret tt)
                 (fun error => console_warn "Failed to cache:" [u; error]))
            urls) ;;;
     console_log "Finished caching requested URLs" [])
    (fun error => console_error "Failed to cache URLs:" [error]).

Definition clearAllCaches : M unit :=
  try_catch
    (names <- caches_keys ;;
     promise_all (map (fun cacheName => caches_delete cacheName) names) ;;;
     console_log "All caches cleared" [])
    (fun error => console_error "Failed to clear caches:" [error]).

(** The inner loop of [getCacheStatus]: the body sizes of the entries of one
    partition are added up; an entry whose read fails is skipped. *)
Fixpoint sum_sizes (cache : CacheHandle) (requests : list string) (cacheSize : nat)
  : M nat :=
  match requests with
  | [] => ret cacheSize
  | request :: rest =>
      cacheSize' <-
        try_catch
          (response <- cache_match cache request ;;
           match response with
           | VResponse r => ret (cacheSize + blob_size r)
           | _ => ret cacheSize
           end)
          (fun error =>
             console_warn "Failed to get size for:" [request] ;;;
             ret cacheSize) ;;
      sum_sizes cache rest cacheSize'
  end.

(** The outer loop of [getCacheStatus]. *)
Fixpoint status_loop (names : list string) (st : CacheStatus) : M CacheStatus :=
  match names with
  | [] => ret st
  | cacheName :: rest =>
      cache <- caches_open cacheName ;;
      requests <- cache_keys cache ;;
      cacheSize <- sum_sizes cache requests 0 ;;
      status_loop rest
        {| cacheNames := cacheNames st;
           totalSize := totalSize st + cacheSize;
           cacheDetails :=
             obj_set (cacheDetails st) cacheName
               {| itemCount := length requests; size := cacheSize |} |}
  end.

Definition getCacheStatus : M StatusReply :=
  try_catch
    (names <- caches_keys ;;
     st <- status_loop names
             {| cacheNames := names; totalSize := 0; cacheDetails := [] |} ;;
     ret (StatusOk st))
    (fun error =>
       console_error "Failed to get cache status:" [error] ;;;
       ret (StatusError error)).

(** The data of a message event: its type tag and, when [data.urls] is an
    array, that array. *)
Record Message : Type := mkMessage {
  msg_type : string;
  msg_urls : option (list string)
}.

(** The message listener.  It awaits none of the promises it creates: a
    [detached] promise stands for the work up to its settlement, so what
    this function gives is the world once the work that the message
    started has settled, in the run in which no other event is handled
    before that.  What a second message sees that arrives before the
    settlement is not described by composing two runs of this function. *)
Definition message_listener (data : Message) : M unit :=
  if String.eqb (msg_type data) "SKIP_WAITING" then skipWaiting
  else if String.eqb (msg_type data) "CACHE_URLS" then
    match msg_urls data with
    | Some urls => detached (cacheUrls urls)
    | None => ret tt
    end
  else if String.eqb (msg_type data) "CLEAR_CACHE" then detached clearAllCaches
  else if String.eqb (msg_type data) "GET_CACHE_STATUS" then
    detached (st <- getCacheStatus ;; postMessage st)
  else console_log "Unknown message type:" [msg_type data].

End Worker.

(** * Specification vocabulary *)

(** ** The invariant of the storage *)

(** A promise keeps the storage well formed. *)
Definition preserves_wf {A : Type} (m : M A) : Prop :=
  forall w, storage_wf (caches w) -> storage_wf (caches (snd (m w))).

(** ** Routing, in the words of the classification table *)

(** The URL contains one of the patterns. *)
Definition contains_any (patterns : list string) (u : string) : Prop :=
  exists p pre post,
    In p patterns /\ u = String.append pre (String.append p post).

(** The URL ends with one of the declared paths. *)
Definition ends_with_any (paths : list string) (u : string) : Prop :=
  exists p pre, In p paths /\ u = String.append pre p.

(** The URL uses the extension scheme the listener skips. *)
Definition extension_scheme (u : string) : Prop :=
  exists rest, u = String.append "chrome-extension://" rest.

(** First match wins. *)
Inductive selects (u : string) : Strategy -> Prop :=
  | selects_network_first :
      contains_any NETWORK_FIRST_ROUTES u -> selects u NetworkFirst
  | selects_cache_first :
      ~ contains_any NETWORK_FIRST_ROUTES u ->
      contains_any CACHE_FIRST_ROUTES u -> selects u CacheFirst
  | selects_cache_only :
      ~ contains_any NETWORK_FIRST_ROUTES u ->
      ~ contains_any CACHE_FIRST_ROUTES u ->
      ends_with_any STATIC_ASSETS u -> selects u CacheOnly
  | selects_stale_while_revalidate :
      ~ contains_any NETWORK_FIRST_ROUTES u ->
      ~ contains_any CACHE_FIRST_ROUTES u ->
      ~ ends_with_any STATIC_ASSETS u -> selects u StaleWhileRevalidate.

(** ** Install and prefetch *)

(** The characters of a plain path: letters, digits, and [-], [.], [/]
    and [_]. *)
Definition path_char (a : ascii) : bool :=
  let n := nat_of_ascii a in
  (Nat.leb 48 n && Nat.leb n 57) || (Nat.leb 65 n && Nat.leb n 90) ||
  (Nat.leb 97 n && Nat.leb n 122) ||
  Nat.eqb n 45 || Nat.eqb n 46 || Nat.eqb n 47 || Nat.eqb n 95.

Fixpoint all_chars (f : ascii -> bool) (s : string) : bool :=
  match s with
  | EmptyString => true
  | String a s' => f a && all_chars f s'
  end.

(** A root-relative path that the platform resolves by putting the origin
    before it: it starts with a slash, has no empty and no dot segment,
    and nothing to escape or to cut off (no query, no fragment). *)
Definition plain_path (u : string) : bool :=
  startsWith u "/" && all_chars path_char u &&
  negb (includes u "//") && negb (includes u "/./") && negb (includes u "/../") &&
  negb (endsWith u "/.") && negb (endsWith u "/..").

(** The fetch of a declared path gives an ok response. *)
Definition fetch_succeeds (e : Env) (u : string) : Prop :=
  exists r, network e (resolve e u) = Some r /\ ok r = true.

(** The fetch of a declared path rejects, or its response is not ok. *)
Definition fetch_fails (e : Env) (u : string) : Prop :=
  forall r, network e (resolve e u) = Some r -> ok r = false.

(** The settlement of the batch of fetches of [cache.addAll], read off the
    network: the pairs to store, or the first failure. *)
Fixpoint batch_outcome (e : Env) (urls : list string)
  : Outcome (list (string * Response)) :=
  match urls with
  | [] => Fulfilled []
  | u :: urls' =>
      match network e (resolve e u) with
      | None => Rejected "Failed to fetch"
      | Some r =>
          if ok r then
            match batch_outcome e urls' with
            | Fulfilled l => Fulfilled ((resolve e u, r) :: l)
            | Rejected error => Rejected error
            end
          else Rejected "Request failed"
      end
  end.

Definition installing_log : Event := EvConsole LLog "Service Worker installing..." [].

Definition caching_log : Event := EvConsole LLog "Caching static assets..." [].

Definition install_failure_log (error : string) : Event :=
  EvConsole LError "Failed to cache static assets:" [error].

(** The events of one run of the install listener, up to its last one. *)
Definition install_events (e : Env) (last : Event) : list Event :=
  [installing_log; caching_log] ++
  map (fun u => EvFetch (resolve e u)) STATIC_ASSETS ++ [last].

(** What one URL of a CACHE_URLS batch does to the storage. *)
Definition prefetch_step (e : Env) (cs : CacheStorage) (u : string) : CacheStorage :=
  match network e (resolve e u) with
  | Some r =>
      if ok r
      then storage_update cs RUNTIME_CACHE_NAME (fun c => cache_insert c (resolve e u) r)
      else cs
  | None => cs
  end.

Definition runtime_lookup (cs : CacheStorage) (u : string) : option Response :=
  cache_lookup (partition_of cs RUNTIME_CACHE_NAME) u.

(** ** Activate *)

Definition activating_log : Event := EvConsole LLog "Service Worker activating..." [].

Definition deleting_log (cacheName : string) : Event :=
  EvConsole LLog "Deleting old cache:" [cacheName].

(** The names the activation sweep deletes. *)
Definition swept_names (cs : CacheStorage) : list string :=
  filter is_old_cache (storage_names cs).

(** A partition the activation sweep leaves in place. *)
Definition survives (p : string * Cache) : bool := negb (is_old_cache (fst p)).

Definition activation_failure_log (error : string) : Event :=
  EvConsole LError "Failed to activate service worker:" [error].

(** The error of the first deletion that fails, when the deletions of
    [names] start at clock [clk]. *)
Fixpoint deletions_fault (e : Env) (clk : nat) (names : list string) : option string :=
  match names with
  | [] => None
  | _ :: rest =>
      match fault e clk OpDelete with
      | Some error => Some error
      | None => deletions_fault e (S clk) rest
      end
  end.

(** The error that keeps the activate step from completing its sweep, if
    any: that of [caches.keys], or of the first deletion that fails. *)
Definition activation_fault (e : Env) (w : World) : option string :=
  match fault e (clock w) OpKeys with
  | Some error => Some error
  | None => deletions_fault e (S (clock w)) (swept_names (caches w))
  end.

(** The storage after the deletions of [names], started at clock [clk]:
    a deletion that fails deletes nothing. *)
Fixpoint sweep_from (e : Env) (clk : nat) (names : list string) (cs : CacheStorage)
  : CacheStorage :=
  match names with
  | [] => cs
  | n :: rest =>
      sweep_from e (S clk) rest
        match fault e clk OpDelete with
        | Some _ => cs
        | None => storage_delete cs n
        end
  end.

(** ** Cache status *)

Definition lookup_size (o : option Response) : nat :=
  match o with
  | Some r => blob_size r
  | None => 0
  end.

(** The sum of the body sizes of the entries of a partition. *)
Definition cache_size (c : Cache) : nat :=
  list_sum (map (fun p => blob_size (snd p)) c).

Definition partition_detail (c : Cache) : CacheDetail :=
  {| itemCount := length c; size := cache_size c |}.

(** What the inner loop of [getCacheStatus] adds up when it starts at clock
    [clk]: the entry whose read fails counts for nothing. *)
Fixpoint measured (e : Env) (c : Cache) (clk : nat) (requests : list string) : nat :=
  match requests with
  | [] => 0
  | k :: rest =>
      match fault e clk OpCacheMatch with
      | Some _ => 0
      | None => lookup_size (cache_lookup c k)
      end + measured e c (S clk) rest
  end.

(** The warnings of the inner loop. *)
Fixpoint read_warnings (e : Env) (clk : nat) (requests : list string) : list Event :=
  match requests with
  | [] => []
  | k :: rest =>
      match fault e clk OpCacheMatch with
      | Some _ => [EvConsole LWarn "Failed to get size for:" [k]]
      | None => []
      end ++ read_warnings e (S clk) rest
  end.

(** The entry of [cacheDetails] that a partition gets: its name, its
    number of entries, and a size that is the sum of the body sizes of the
    entries that could be read. *)
Definition detail_of (e : Env) (p : string * Cache) (d : string * CacheDetail) : Prop :=
  fst d = fst p /\
  itemCount (snd d) = length (snd p) /\
  size (snd d) <= cache_size (snd p) /\
  (healthy e -> size (snd d) = cache_size (snd p)).

(** A status reply is about the storage [cs]: it lists the partition
    names; its details have an entry for every partition whose name is not
    [__proto__], and for nothing else; and there is a size for each
    partition, at most the sum of the body sizes of its entries and equal
    to it when no cache-storage operation fails, such that the entry of
    the partition carries its number of entries and that size, and the
    total size is the sum of these sizes. *)
Definition reports (e : Env) (cs : CacheStorage) (s : CacheStatus) : Prop :=
  cacheNames s = storage_names cs /\
  (forall key d, obj_get (cacheDetails s) key = Some d ->
     In key (storage_names cs) /\ key <> "__proto__") /\
  exists sizes,
    totalSize s = list_sum sizes /\
    Forall2
      (fun p sz =>
         sz <= cache_size (snd p) /\
         (healthy e -> sz = cache_size (snd p)) /\
         (fst p <> "__proto__" ->
          obj_get (cacheDetails s) (fst p) =
          Some {| itemCount := length (snd p); size := sz |}))
      cs sizes.

(** A status reply gives the exact numbers of the storage [cs]. *)
Definition exact_status (cs : CacheStorage) (s : CacheStatus) : Prop :=
  cacheNames s = storage_names cs /\
  totalSize s = list_sum (map (fun p => cache_size (snd p)) cs) /\
  forall p, In p cs -> fst p <> "__proto__" ->
    obj_get (cacheDetails s) (fst p) = Some (partition_detail (snd p)).

(** * Sample inputs *)

Definition example_origin : string := "https://app.example".

(** An environment whose network is unreachable and whose storage works. *)
Definition offline_env : Env :=
  {| origin := example_origin; network := fun _ => None; fault := fun _ _ => None |}.

(** An environment whose network answers every URL with an ok response. *)
Definition online_env : Env :=
  {| origin := example_origin;
     network := fun u => Some {| status := 200; statusText := "OK"; headers := [];
                                 body := u |};
     fault := fun _ _ => None |}.

Definition icon_request : Request :=
  {| url := "https://app.example/icons/icon-192x192.png"; method := "GET";
     mode := "no-cors" |}.

Definition icon_response : Response :=
  {| status := 200; statusText := "OK";
     headers := [("Content-Type", "image/png")]; body := "icon bytes" |}.

(** An environment whose network knows the icon only. *)
Definition icon_env : Env :=
  {| origin := example_origin;
     network := fun u => if String.eqb u (url icon_request) then Some icon_response
                         else None;
     fault := fun _ _ => None |}.

(** An environment in which every read of a single entry fails. *)
Definition read_fault_env : Env :=
  {| origin := example_origin;
     network := fun _ => None;
     fault := fun _ op =>
       match op with
       | OpCacheMatch => Some "QuotaExceededError"
       | _ => None
       end |}.

(** An environment in which every deletion of a partition fails. *)
Definition delete_fault_env : Env :=
  {| origin := example_origin;
     network := fun _ => None;
     fault := fun _ op =>
       match op with
       | OpDelete => Some "QuotaExceededError"
       | _ => None
       end |}.

(** An environment whose network knows the icon and in which every
    [caches.open] fails. *)
Definition open_fault_env : Env :=
  {| origin := example_origin;
     network := fun u => if String.eqb u (url icon_request) then Some icon_response
                         else None;
     fault := fun _ op =>
       match op with
       | OpOpen => Some "QuotaExceededError"
       | _ => None
       end |}.

Definition empty_world : World := {| caches := []; trace := []; clock := 0 |}.

Definition icon_world : World :=
  {| caches := [(RUNTIME_CACHE_NAME, [(url icon_request, icon_response)])];
     trace := []; clock := 0 |}.

(** A storage with a stale static partition next to the two current ones. *)
Definition upgrade_world : World :=
  {| caches :=
       [ ("invomodo-static-v1.0.0", []);
         ("invomodo-runtime-v1.0.0", [(url icon_request, icon_response)]);
         ("invomodo-static-v0.9.0", []);
         ("other-app-cache", []) ];
     trace := []; clock := 0 |}.

Fixpoint filler (n : nat) : string :=
  match n with
  | O => EmptyString
  | S n' => String "x" (filler n')
  end.

Definition sized_response (n : nat) : Response :=
  {| status := 200; statusText := "OK"; headers := []; body := filler n |}.

(** Two partitions holding one entry of 100 bytes and one of 250 bytes. *)
Definition two_partition_world : World :=
  {| caches :=
       [ (STATIC_CACHE_NAME, [("https://app.example/index.html", sized_response 100)]);
         (RUNTIME_CACHE_NAME, [("https://app.example/api/items", sized_response 250)]) ];
     trace := []; clock := 0 |}.

Definition root_request : Request :=
  {| url := "https://app.example/"; method := "GET"; mode := "navigate" |}.

Definition extension_root_request : Request :=
  {| url := "chrome-extension://abcdefgh/"; method := "GET"; mode := "navigate" |}.

Definition session_request : Request :=
  {| url := "https://app.example/api/user/session"; method := "GET";
     mode := "navigate" |}.

Definition page_request : Request :=
  {| url := "https://app.example/dashboard"; method := "GET"; mode := "cors" |}.

Definition status_message : Message :=
  {| msg_type := "GET_CACHE_STATUS"; msg_urls := None |}.

(** * Further sample inputs *)

(** An environment whose network knows the icon and in which every write
    of an entry fails. *)
Definition put_fault_env : Env :=
  {| origin := example_origin;
     network := fun u => if String.eqb u (url icon_request) then Some icon_response
                         else None;
     fault := fun _ op =>
       match op with
       | OpPut => Some "QuotaExceededError"
       | _ => None
       end |}.

(** An environment in which every lookup across the partitions fails. *)
Definition match_fault_env : Env :=
  {| origin := example_origin;
     network := fun _ => None;
     fault := fun _ op =>
       match op with
       | OpMatch => Some "InvalidStateError"
       | _ => None
       end |}.

Definition api_request : Request :=
  {| url := "https://app.example/api/items"; method := "GET"; mode := "cors" |}.

Definition stale_response : Response :=
  {| status := 200; statusText := "OK"; headers := []; body := "stale icon" |}.

(** A storage whose static partition holds an older copy of the icon. *)
Definition stale_icon_world : World :=
  {| caches := [(STATIC_CACHE_NAME, [(url icon_request, stale_response)])];
     trace := []; clock := 0 |}.

(** * Further vocabulary *)

(** A promise leaves the partition [name] as it is, and its value, when it
    fulfils, satisfies [Q]. *)
Definition frames (name : string) {A : Type} (m : M A) (Q : A -> Prop) : Prop :=
  forall w,
    storage_find (caches (snd (m w))) name = storage_find (caches w) name /\
    (forall a, fst (m w) = Fulfilled a -> Q a).

Definition any_value {A : Type} (a : A) : Prop := True.

Definition empty_status : CacheStatus :=
  {| cacheNames := []; totalSize := 0; cacheDetails := [] |}.

(** The keys of a batch. *)
Definition in_batch (batch : list (string * Response)) (p : string * Response) : bool :=
  existsb (String.eqb (fst p)) (map fst batch).

Definition asset_request (e : Env) (asset : string) : Request :=
  {| url := resolve e asset; method := "GET"; mode := "no-cors" |}.

(** * Notifications and background sync (sw.js, lines 300-376)

    These listeners touch neither the caches nor the network; they are
    embedded as functions from what the platform hands them to the actions
    they request, in order. *)

(** A parsed JSON value; numbers are taken to be integers. *)
#[warnings="-register-all"]
Inductive Json : Type :=
  | JNull
  | JBool (b : bool)
  | JNum (n : Z)
  | JStr (s : string)
  | JArr (items : list Json)
  | JObj (fields : list (string * Json)).

(** A value that may be undefined. *)
Definition JsValue : Type := option Json.

(** Truthiness: undefined, null, false, 0 and the empty string are falsy. *)
Definition js_truthy (v : JsValue) : bool :=
  match v with
  | None => false
  | Some JNull => false
  | Some (JBool b) => b
  | Some (JNum n) => negb (Z.eqb n 0)
  | Some (JStr s) => negb (String.eqb s "")
  | Some (JArr _) => true
  | Some (JObj _) => true
  end.

Fixpoint field (fields : list (string * Json)) (key : string) : JsValue :=
  match fields with
  | [] => None
  | (k, v) :: rest => if String.eqb k key then Some v else field rest key
  end.

(** [value.key] for one of the keys the worker reads (none of them is a
    property of a primitive or of an array): [None] when the access throws,
    which it does on null. *)
Definition get_property (value : Json) (key : string) : option JsValue :=
  match value with
  | JNull => None
  | JObj fields => Some (field fields key)
  | _ => Some None
  end.

(** [v || fallback] *)
Definition or_default (v : JsValue) (fallback : Json) : Json :=
  match v with
  | Some j => if js_truthy v then j else fallback
  | None => fallback
  end.

Record NotificationOptions : Type := mkOptions {
  opt_body : Json;
  opt_icon : string;
  opt_badge : string;
  opt_tag : Json;
  opt_requireInteraction : Json;
  opt_actions : Json
}.

Record Client : Type := mkClient {
  client_id : nat;
  client_url : string
}.

Inductive ClientMessage : Type :=
  | NotificationClick (target : Json)
  | RefreshSession (timestamp : Z).

(** What a listener asks of the platform.  Of a console call the level and
    the text are recorded. *)
Inductive Action : Type :=
  | ActConsole (l : Level) (text : string)
  | ActShowNotification (title : Json) (options : NotificationOptions)
  | ActCloseNotification
  | ActFocus (client : nat)
  | ActPostMessage (client : nat) (message : ClientMessage)
  | ActOpenWindow (target : Json).

(** What [event.data] of a push event is: absent, not parseable by
    [json()], or parsed. *)
Inductive PushPayload : Type :=
  | NoData
  | BadJson (error : string)
  | Parsed (data : Json).

(** [value.key] where the access cannot throw. *)
Definition property (value : Json) (key : string) : JsValue :=
  match get_property value key with
  | Some v => v
  | None => None
  end.

(** The push listener: the actions it requests, and whether it returns or
    throws.  [json()] throws before anything is logged; the first property
    access throws on a null payload. *)
Definition push_listener (payload : PushPayload) : list Action * Outcome unit :=
  match payload with
  | NoData => ([], Fulfilled tt)
  | BadJson error => ([], Rejected error)
  | Parsed JNull => ([ActConsole LLog "Push notification received:"], Rejected "TypeError")
  | Parsed data =>
      let options :=
        {| opt_body :=
             or_default (property data "body") (JStr "New notification from SecurePWA");
           opt_icon := "/icons/icon-192x192.png";
           opt_badge := "/icons/badge-72x72.png";
           opt_tag := or_default (property data "tag") (JStr "default");
           opt_requireInteraction :=
             or_default (property data "requireInteraction") (JBool false);
           opt_actions := or_default (property data "actions") (JArr []) |} in
      ([ ActConsole LLog "Push notification received:";
         ActShowNotification (or_default (property data "title") (JStr "SecurePWA"))
           options ],
       Fulfilled tt)
  end.

(** [event.notification.data?.url || '/'] *)
Definition urlToOpen (data : JsValue) : Json :=
  or_default
    match data with
    | None | Some JNull => None
    | Some value => property value "url"
    end
    (JStr "/").

(** The loop over the window clients: the first client whose URL includes
    the origin is focused and told; when there is none a window is
    opened. *)
Fixpoint focus_or_open (origin : string) (target : Json) (clientList : list Client)
  : list Action :=
  match clientList with
  | [] => [ActOpenWindow target]
  | client :: rest =>
      if includes (client_url client) origin
      then [ActFocus (client_id client);
            ActPostMessage (client_id client) (NotificationClick target)]
      else focus_or_open origin target rest
  end.

(** The notificationclick listener: the actions it requests and the
    settlement of the promise it hands to [event.waitUntil], which rejects
    when [clients.matchAll] does. *)
Definition notificationclick_listener (origin : string) (data : JsValue)
  (matchAll : Outcome (list Client)) : list Action * Outcome unit :=
  let first := [ActConsole LLog "Notification clicked:"; ActCloseNotification] in
  match matchAll with
  | Fulfilled clientList =>
      (first ++ focus_or_open origin (urlToOpen data) clientList, Fulfilled tt)
  | Rejected error => (first, Rejected error)
  end.

(** [clients.forEach(client => client.postMessage(...))]: the [k]-th call
    of [Date.now()] gives [now k]. *)
Fixpoint refresh_messages (now : nat -> Z) (k : nat) (clientList : list Client)
  : list Action :=
  match clientList with
  | [] => []
  | client :: rest =>
      ActPostMessage (client_id client) (RefreshSession (now k)) ::
      refresh_messages now (S k) rest
  end.

Definition refreshUserSession (now : nat -> Z) (matchAll : Outcome (list Client))
  : list Action * Outcome unit :=
  match matchAll with
  | Fulfilled clientList =>
      (refresh_messages now 0 clientList ++
       [ActConsole LLog "Session refresh request sent to clients"],
       Fulfilled tt)
  | Rejected error => ([ActConsole LError "Failed to refresh session:"], Fulfilled tt)
  end.

(** The sync listener: the actions it requests, and the promise it hands
    to [event.waitUntil], if any. *)
Definition sync_listener (now : nat -> Z) (tag : string)
  (matchAll : Outcome (list Client)) : list Action * option (Outcome unit) :=
  let first := [ActConsole LLog "Background sync triggered:"] in
  if String.eqb tag "session-refresh"
  then (first ++ fst (refreshUserSession now matchAll),
        Some (snd (refreshUserSession now matchAll)))
  else (first, None).

(** [result] is [v || fallback]: [v] when it is truthy, the fallback
    otherwise. *)
Definition kept_or (v : JsValue) (fallback result : Json) : Prop :=
  (js_truthy v = true -> Some result = v) /\
  (js_truthy v = false -> result = fallback).

Definition sample_clients : list Client :=
  [ {| client_id := 1; client_url := "https://other.example/page" |};
    {| client_id := 2; client_url := "https://app.example/dashboard" |};
    {| client_id := 3; client_url := "https://app.example/settings" |} ].

(** * Properties *)

(** ** String predicates *)

Lemma startsWith_spec (s p : string) :
  startsWith s p = true <-> exists rest, s = String.append p rest.
Proof.
  revert s; induction p as [|a p IH]; intros s; simpl.
  - split; [intros _; exists s; reflexivity | reflexivity].
  - destruct s as [|b s]; simpl.
    + split; [discriminate | intros [rest H]; discriminate].
    + rewrite andb_true_iff, Ascii.eqb_eq, IH. split.
      * intros [-> [rest ->]]. exists rest. reflexivity.
      * intros [rest H]. injection H as -> ->. split; [reflexivity | eauto].
Qed.

Lemma includes_spec (s sub : string) :
  includes s sub = true <->
  exists pre post, s = String.append pre (String.append sub post).
Proof.
  induction s as [|b s IH].
  - cbn [includes]. rewrite orb_false_r, startsWith_spec. split.
    + intros [rest H]. exists EmptyString, rest. exact H.
    + intros [pre [post H]]. destruct pre; simpl in H; [eauto | discriminate].
  - cbn [includes]. rewrite orb_true_iff, startsWith_spec, IH. split.
    + intros [[rest H] | [pre [post H]]].
      * exists EmptyString, rest. exact H.
      * exists (String b pre), post. simpl. rewrite H. reflexivity.
    + intros [pre [post H]]. destruct pre as [|c pre]; simpl in H.
      * left. eauto.
      * right. injection H as _ H. eauto.
Qed.

Lemma endsWith_spec (s suf : string) :
  endsWith s suf = true <-> exists pre, s = String.append pre suf.
Proof.
  induction s as [|b s IH].
  - cbn [endsWith]. rewrite orb_false_r, String.eqb_eq. split.
    + intros H. exists EmptyString. exact H.
    + intros [pre H]. destruct pre; simpl in H; [exact H | discriminate].
  - cbn [endsWith]. rewrite orb_true_iff, String.eqb_eq, IH. split.
    + intros [H | [pre H]].
      * exists EmptyString. exact H.
      * exists (String b pre). simpl. rewrite H. reflexivity.
    + intros [pre H]. destruct pre as [|c pre]; simpl in H.
      * left. exact H.
      * right. injection H as _ H. eauto.
Qed.

(** ** Routing (C5) *)

Lemma existsb_includes_spec (patterns : list string) (u : string) :
  existsb (fun route => includes u route) patterns = true <->
  contains_any patterns u.
Proof.
  unfold contains_any. rewrite existsb_exists. split.
  - intros [p [Hin H]]. apply includes_spec in H as [pre [post H]]. eauto 6.
  - intros [p [pre [post [Hin H]]]]. exists p. split; [exact Hin|].
    apply includes_spec. eauto.
Qed.

Lemma isNetworkFirstRoute_spec (u : string) :
  isNetworkFirstRoute u = true <-> contains_any NETWORK_FIRST_ROUTES u.
Proof. apply existsb_includes_spec. Qed.

Lemma isCacheFirstRoute_spec (u : string) :
  isCacheFirstRoute u = true <-> contains_any CACHE_FIRST_ROUTES u.
Proof. apply existsb_includes_spec. Qed.

Lemma isStaticAsset_spec (u : string) :
  isStaticAsset u = true <-> ends_with_any STATIC_ASSETS u.
Proof.
  unfold isStaticAsset, ends_with_any. rewrite existsb_exists. split.
  - intros [p [Hin H]]. apply endsWith_spec in H as [pre H]. eauto.
  - intros [p [pre [Hin H]]]. exists p. split; [exact Hin|].
    apply endsWith_spec. eauto.
Qed.

Lemma extension_scheme_spec (u : string) :
  startsWith u "chrome-extension://" = true <-> extension_scheme u.
Proof. apply startsWith_spec. Qed.

Lemma bool_false_iff (b : bool) (P : Prop) :
  (b = true <-> P) -> (b = false <-> ~ P).
Proof.
  intros H. destruct b; split; intros H'; try reflexivity; try discriminate.
  - exfalso. apply H'. apply H. reflexivity.
  - intros HP. apply H in HP. discriminate.
Qed.

Lemma selects_functional (u : string) (s s' : Strategy) :
  selects u s -> selects u s' -> s = s'.
Proof. intros H H'; inversion H; inversion H'; subst; tauto. Qed.

(** The listener computes the table. *)
Lemma fetch_listener_selects (request : Request) (s : Strategy) :
  fetch_listener request = RespondWith s <->
  method request = "GET" /\ ~ extension_scheme (url request) /\
  selects (url request) s.
Proof.
  unfold fetch_listener.
  pose proof (String.eqb_spec (method request) "GET") as Hm.
  pose proof (extension_scheme_spec (url request)) as He.
  pose proof (isNetworkFirstRoute_spec (url request)) as Hn.
  pose proof (isCacheFirstRoute_spec (url request)) as Hc.
  pose proof (isStaticAsset_spec (url request)) as Hs.
  destruct Hm as [Hm | Hm]; cbn [negb].
  2: { split; [discriminate | tauto]. }
  destruct (startsWith (url request) "chrome-extension://").
  { split; [discriminate | intros [_ [H _]]; exfalso; apply H, He; reflexivity]. }
  apply bool_false_iff in He.
  assert (Hne : ~ extension_scheme (url request)) by (apply He; reflexivity).
  destruct (isNetworkFirstRoute (url request)).
  { assert (Hy : contains_any NETWORK_FIRST_ROUTES (url request)) by (apply Hn; reflexivity).
    split.
    - intros H; injection H as <-. auto using selects.
    - intros [_ [_ H]]. f_equal. inversion H; subst; tauto. }
  apply bool_false_iff in Hn.
  assert (Hnn : ~ contains_any NETWORK_FIRST_ROUTES (url request)) by (apply Hn; reflexivity).
  destruct (isCacheFirstRoute (url request)).
  { assert (Hy : contains_any CACHE_FIRST_ROUTES (url request)) by (apply Hc; reflexivity).
    split.
    - intros H; injection H as <-. auto using selects.
    - intros [_ [_ H]]. f_equal. inversion H; subst; tauto. }
  apply bool_false_iff in Hc.
  assert (Hnc : ~ contains_any CACHE_FIRST_ROUTES (url request)) by (apply Hc; reflexivity).
  destruct (isStaticAsset (url request)).
  { assert (Hy : ends_with_any STATIC_ASSETS (url request)) by (apply Hs; reflexivity).
    split.
    - intros H; injection H as <-. auto using selects.
    - intros [_ [_ H]]. f_equal. inversion H; subst; tauto. }
  apply bool_false_iff in Hs.
  assert (Hns : ~ ends_with_any STATIC_ASSETS (url request)) by (apply Hs; reflexivity).
  split.
  - intros H; injection H as <-. auto using selects.
  - intros [_ [_ H]]. f_equal. inversion H; subst; tauto.
Qed.

Lemma fetch_listener_pass_through (request : Request) :
  fetch_listener request = PassThrough <->
  method request <> "GET" \/ extension_scheme (url request).
Proof.
  unfold fetch_listener.
  pose proof (String.eqb_spec (method request) "GET") as Hm.
  pose proof (extension_scheme_spec (url request)) as He.
  destruct Hm as [Hm | Hm]; cbn [negb].
  2: { split; [auto | reflexivity]. }
  destruct (startsWith (url request) "chrome-extension://").
  { split; [intros _; right; apply He; reflexivity | reflexivity]. }
  apply bool_false_iff in He.
  assert (Hne : ~ extension_scheme (url request)) by (apply He; reflexivity).
  split.
  - destruct (isNetworkFirstRoute _); [discriminate|].
    destruct (isCacheFirstRoute _); [discriminate|].
    destruct (isStaticAsset _); discriminate.
  - tauto.
Qed.

(** C5: a request that is not a GET, or whose URL starts with the extension
    scheme, is passed through; every other request is answered by exactly
    one strategy, the one the first-match-wins table selects: network-first
    when the URL contains a network-first pattern, else cache-first when it
    contains a cache-first pattern, else cache-only when it ends with a
    declared static asset path, else stale-while-revalidate. *)
Theorem fetch_listener_dispatch (request : Request) :
  (fetch_listener request = PassThrough <->
   method request <> "GET" \/ extension_scheme (url request)) /\
  (forall s, fetch_listener request = RespondWith s <->
             method request = "GET" /\ ~ extension_scheme (url request) /\
             selects (url request) s) /\
  (method request = "GET" /\ ~ extension_scheme (url request) <->
   exists s, fetch_listener request = RespondWith s /\
             forall s', fetch_listener request = RespondWith s' -> s' = s).
Proof.
  split; [apply fetch_listener_pass_through|].
  split; [intros s; apply fetch_listener_selects|].
  split.
  - intros [Hm He].
    destruct (fetch_listener request) as [|s] eqn:Hd.
    + apply fetch_listener_pass_through in Hd. tauto.
    + exists s. split; [reflexivity|]. intros s' H. injection H as ->. reflexivity.
  - intros [s [H _]]. apply fetch_listener_selects in H. tauto.
Qed.

(** ** Running the primitives *)

Section Run.

Variable e : Env.

Lemma storage_op_healthy {A : Type} (op : StorageOp)
  (f : CacheStorage -> A * CacheStorage) (w : World) :
  fault e (clock w) op = None ->
  storage_op e op f w =
  (Fulfilled (fst (f (caches w))),
   {| caches := snd (f (caches w)); trace := trace w; clock := S (clock w) |}).
Proof.
  intros H. unfold storage_op. rewrite H. destruct (f (caches w)); reflexivity.
Qed.

Lemma storage_op_faulty {A : Type} (op : StorageOp)
  (f : CacheStorage -> A * CacheStorage) (w : World) (error : string) :
  fault e (clock w) op = Some error ->
  storage_op e op f w =
  (Rejected error, {| caches := caches w; trace := trace w; clock := S (clock w) |}).
Proof. intros H. unfold storage_op. rewrite H. reflexivity. Qed.

Lemma caches_match_healthy (u : string) (w : World) :
  fault e (clock w) OpMatch = None ->
  caches_match e u w =
  (Fulfilled (of_lookup (storage_match (caches w) u)),
   {| caches := caches w; trace := trace w; clock := S (clock w) |}).
Proof. intros H. unfold caches_match. rewrite storage_op_healthy by exact H. reflexivity. Qed.

End Run.

(** Runs the cache-storage operations in the goal, in an environment whose
    storage works. *)
Ltac run_storage Hh :=
  rewrite !storage_op_healthy by apply Hh; cbn [fst snd caches trace clock].

(** ** Sample environments *)

Lemma online_env_healthy : healthy online_env.
Proof. intros n. reflexivity. Qed.

Lemma icon_env_healthy : healthy icon_env.
Proof. intros n. reflexivity. Qed.

Lemma offline_env_healthy : healthy offline_env.
Proof. intros n. reflexivity. Qed.

(** ** Cache-only (C8, C10) *)

(** C8: the cache-only strategy resolves to the lookup across all
    partitions, whatever it finds: undefined when no partition holds the
    URL.  It makes no fetch and writes nothing: the trace and the storage
    are the ones it started from. *)
Theorem cacheOnlyStrategy_is_lookup (e : Env) (request : Request) (w : World) :
  healthy e ->
  cacheOnlyStrategy e request w =
    (Fulfilled (of_lookup (storage_match (caches w) (url request))),
     {| caches := caches w; trace := trace w; clock := S (clock w) |}) /\
  (storage_match (caches w) (url request) = None ->
   fst (cacheOnlyStrategy e request w) = Fulfilled VUndefined).
Proof.
  intros H. unfold cacheOnlyStrategy.
  rewrite caches_match_healthy by apply H.
  split; [reflexivity|]. intros ->. reflexivity.
Qed.

Lemma cacheOnlyStrategy_is_lookup_witness :
  healthy offline_env /\
  cacheOnlyStrategy offline_env root_request empty_world =
    (Fulfilled VUndefined, {| caches := []; trace := []; clock := 1 |}).
Proof.
  split.
  - exact offline_env_healthy.
  - exact (proj1 (cacheOnlyStrategy_is_lookup offline_env root_request empty_world
                    offline_env_healthy)).
Defined.

(** C10, as stated, fails: a GET request whose URL ends with a slash and
    contains no network-first and no cache-first pattern is passed through,
    not answered by the cache-only strategy, when its URL starts with the
    extension scheme. *)
Lemma extension_root_request_not_cache_only :
  method extension_root_request = "GET" /\
  (exists pre, url extension_root_request = String.append pre "/") /\
  ~ contains_any NETWORK_FIRST_ROUTES (url extension_root_request) /\
  ~ contains_any CACHE_FIRST_ROUTES (url extension_root_request) /\
  fetch_listener extension_root_request = PassThrough /\
  fetch_listener extension_root_request <> RespondWith CacheOnly.
Proof.
  split; [reflexivity|].
  split.
  { exists "chrome-extension://abcdefgh". reflexivity. }
  split.
  { intros H. apply isNetworkFirstRoute_spec in H. discriminate H. }
  split.
  { intros H. apply isCacheFirstRoute_spec in H. discriminate H. }
  split; [reflexivity | discriminate].
Qed.

(** C10, amended: a GET request whose URL does not start with the extension
    scheme, ends with a slash and contains no network-first and no
    cache-first pattern is answered by the cache-only strategy; when no
    partition holds its URL the answer is undefined, and no fetch is made. *)
Theorem trailing_slash_is_cache_only (e : Env) (request : Request) (w : World) :
  method request = "GET" ->
  ~ extension_scheme (url request) ->
  (exists pre, url request = String.append pre "/") ->
  ~ contains_any NETWORK_FIRST_ROUTES (url request) ->
  ~ contains_any CACHE_FIRST_ROUTES (url request) ->
  fetch_listener request = RespondWith CacheOnly /\
  (healthy e ->
   storage_match (caches w) (url request) = None ->
   handle_fetch e request w =
     (Fulfilled (Some VUndefined),
      {| caches := caches w; trace := trace w; clock := S (clock w) |})).
Proof.
  intros Hm He Hs Hn Hc.
  assert (Hd : fetch_listener request = RespondWith CacheOnly).
  { apply fetch_listener_selects. split; [exact Hm|]. split; [exact He|].
    apply selects_cache_only; [exact Hn | exact Hc |].
    destruct Hs as [pre Hu].
    exists "/", pre. split; [left; reflexivity | exact Hu]. }
  split; [exact Hd|].
  intros Hh Hmiss. unfold handle_fetch. rewrite Hd.
  unfold bind, run_strategy, cacheOnlyStrategy.
  rewrite caches_match_healthy by apply Hh. rewrite Hmiss. reflexivity.
Qed.

Lemma trailing_slash_is_cache_only_witness :
  fetch_listener root_request = RespondWith CacheOnly /\
  handle_fetch offline_env root_request empty_world =
    (Fulfilled (Some VUndefined), {| caches := []; trace := []; clock := 1 |}).
Proof.
  assert (Hm : method root_request = "GET") by reflexivity.
  assert (He : ~ extension_scheme (url root_request)).
  { intros H. apply extension_scheme_spec in H. discriminate H. }
  assert (Hs : exists pre, url root_request = String.append pre "/").
  { exists "https://app.example". reflexivity. }
  assert (Hn : ~ contains_any NETWORK_FIRST_ROUTES (url root_request)).
  { intros H. apply isNetworkFirstRoute_spec in H. discriminate H. }
  assert (Hc : ~ contains_any CACHE_FIRST_ROUTES (url root_request)).
  { intros H. apply isCacheFirstRoute_spec in H. discriminate H. }
  destruct (trailing_slash_is_cache_only offline_env root_request empty_world
              Hm He Hs Hn Hc) as [Hd Hr].
  split; [exact Hd|].
  exact (Hr offline_env_healthy eq_refl).
Defined.

(** ** Facts about the storage *)

Lemma cache_lookup_app (c c' : Cache) (u : string) :
  cache_lookup (c ++ c') u =
  match cache_lookup c u with
  | Some r => Some r
  | None => cache_lookup c' u
  end.
Proof.
  induction c as [|[k r] c IH]; simpl; [reflexivity|].
  destruct (String.eqb k u); [reflexivity | exact IH].
Qed.

Lemma cache_lookup_filter_same (c : Cache) (u : string) :
  cache_lookup (filter (fun p => negb (String.eqb (fst p) u)) c) u = None.
Proof.
  induction c as [|[k r] c IH]; simpl; [reflexivity|].
  destruct (String.eqb k u) eqn:E; simpl; [exact IH|].
  rewrite E. exact IH.
Qed.

Lemma cache_lookup_filter_other (c : Cache) (u v : string) :
  u <> v ->
  cache_lookup (filter (fun p => negb (String.eqb (fst p) u)) c) v = cache_lookup c v.
Proof.
  intros Hne. induction c as [|[k r] c IH]; simpl; [reflexivity|].
  destruct (String.eqb_spec k u) as [-> | Hk]; simpl.
  - destruct (String.eqb_spec u v) as [E | _]; [contradiction | exact IH].
  - destruct (String.eqb k v); [reflexivity | exact IH].
Qed.

Lemma cache_lookup_insert_same (c : Cache) (u : string) (r : Response) :
  cache_lookup (cache_insert c u r) u = Some r.
Proof.
  unfold cache_insert. rewrite cache_lookup_app, cache_lookup_filter_same.
  simpl. rewrite String.eqb_refl. reflexivity.
Qed.

Lemma cache_lookup_insert_other (c : Cache) (u v : string) (r : Response) :
  u <> v -> cache_lookup (cache_insert c u r) v = cache_lookup c v.
Proof.
  intros Hne. unfold cache_insert.
  rewrite cache_lookup_app, cache_lookup_filter_other by exact Hne.
  destruct (cache_lookup c v); [reflexivity|]. simpl.
  destruct (String.eqb_spec u v); [contradiction | reflexivity].
Qed.

Lemma storage_find_app (cs cs' : CacheStorage) (name : string) :
  storage_find (cs ++ cs') name =
  match storage_find cs name with
  | Some c => Some c
  | None => storage_find cs' name
  end.
Proof.
  induction cs as [|[n c] cs IH]; simpl; [reflexivity|].
  destruct (String.eqb n name); [reflexivity | exact IH].
Qed.

Lemma storage_find_open (cs : CacheStorage) (name : string) :
  storage_find (storage_open cs name) name = Some (partition_of cs name).
Proof.
  unfold storage_open, partition_of.
  destruct (storage_find cs name) eqn:E; [exact E|].
  rewrite storage_find_app, E. simpl. rewrite String.eqb_refl. reflexivity.
Qed.

Lemma storage_find_update (cs : CacheStorage) (name : string) (f : Cache -> Cache) :
  storage_find (storage_update cs name f) name =
  option_map f (storage_find cs name).
Proof.
  induction cs as [|[n c] cs IH]; simpl; [reflexivity|].
  destruct (String.eqb n name) eqn:E; simpl; rewrite E; [reflexivity | exact IH].
Qed.

Lemma partition_of_put (cs : CacheStorage) (name u : string) (r : Response) :
  partition_of
    (storage_update (storage_open cs name) name (fun c => cache_insert c u r)) name =
  cache_insert (partition_of cs name) u r.
Proof.
  unfold partition_of at 1.
  rewrite storage_find_update, storage_find_open. reflexivity.
Qed.

Lemma storage_match_app (cs cs' : CacheStorage) (u : string) :
  storage_match (cs ++ cs') u =
  match storage_match cs u with
  | Some r => Some r
  | None => storage_match cs' u
  end.
Proof.
  induction cs as [|[n c] cs IH]; simpl; [reflexivity|].
  destruct (cache_lookup c u); [reflexivity | exact IH].
Qed.

(** Once a response is put under a URL that no partition held, the lookup
    across all partitions finds it. *)
Lemma storage_match_put (cs : CacheStorage) (name u : string) (r : Response) :
  storage_match cs u = None ->
  storage_match
    (storage_update (storage_open cs name) name (fun c => cache_insert c u r)) u =
  Some r.
Proof.
  intros Hmiss.
  assert (Hgen : forall cs0, storage_match cs0 u = None ->
            storage_find cs0 name <> None ->
            storage_match (storage_update cs0 name (fun c => cache_insert c u r)) u = Some r).
  { induction cs0 as [|[n c] cs0 IH]; simpl; intros Hm Hf; [congruence|].
    destruct (cache_lookup c u) eqn:El; [discriminate|].
    destruct (String.eqb n name); simpl.
    - rewrite cache_lookup_insert_same. reflexivity.
    - rewrite El. apply IH; assumption. }
  apply Hgen.
  - unfold storage_open. destruct (storage_find cs name); [exact Hmiss|].
    rewrite storage_match_app, Hmiss. reflexivity.
  - rewrite storage_find_open. discriminate.
Qed.

(** ** The storage invariant *)

Lemma cache_insert_wf (c : Cache) (u : string) (r : Response) :
  cache_wf c -> cache_wf (cache_insert c u r).
Proof.
  unfold cache_wf, cache_insert. intros Hnd. rewrite map_app. cbn [map fst].
  assert (Hsub : forall k, In k (map fst (filter (fun p => negb (String.eqb (fst p) u)) c)) ->
                   In k (map fst c) /\ k <> u).
  { intros k Hk. apply in_map_iff in Hk as [p [<- Hp]].
    apply filter_In in Hp as [Hp Hne]. split; [apply in_map, Hp|].
    apply negb_true_iff in Hne. apply String.eqb_neq, Hne. }
  assert (Hnd' : NoDup (map fst (filter (fun p => negb (String.eqb (fst p) u)) c))).
  { clear Hsub. induction c as [|p c IH]; [constructor|].
    inversion Hnd as [|x l Hnin Hnd']; subst. cbn [filter].
    destruct (negb (String.eqb (fst p) u)); [|apply IH, Hnd'].
    cbn [map]. constructor; [|apply IH, Hnd'].
    intros Hin. apply Hnin. apply in_map_iff in Hin as [q [Hq Hin]].
    apply filter_In in Hin as [Hin _]. rewrite <- Hq. apply in_map, Hin. }
  apply NoDup_app; [exact Hnd' | repeat constructor; intros [] |].
  intros k Hk [<- | []]. apply Hsub in Hk as [_ Hk]. congruence.
Qed.

Lemma storage_names_update (cs : CacheStorage) (name : string) (f : Cache -> Cache) :
  storage_names (storage_update cs name f) = storage_names cs.
Proof.
  unfold storage_names. induction cs as [|[n c] cs IH]; [reflexivity|].
  cbn [storage_update]. destruct (String.eqb n name); cbn [map fst]; [reflexivity|].
  rewrite IH. reflexivity.
Qed.

Lemma storage_update_wf (cs : CacheStorage) (name : string) (f : Cache -> Cache) :
  (forall c, cache_wf c -> cache_wf (f c)) ->
  storage_wf cs -> storage_wf (storage_update cs name f).
Proof.
  intros Hf [Hnd Hall]. split; [rewrite storage_names_update; exact Hnd|].
  clear Hnd. induction Hall as [|[n c] cs Hc Hall IH]; [constructor|].
  cbn [storage_update]. destruct (String.eqb n name); constructor;
    cbn [snd] in *; auto.
Qed.

Lemma storage_find_names (cs : CacheStorage) (name : string) :
  storage_find cs name = None -> ~ In name (storage_names cs).
Proof.
  unfold storage_names. induction cs as [|[n c] cs IH]; intros Hf; [intros []|].
  cbn [storage_find] in Hf. destruct (String.eqb_spec n name) as [|Hne]; [discriminate|].
  intros [H | H]; [exact (Hne H) | exact (IH Hf H)].
Qed.

Lemma storage_open_wf (cs : CacheStorage) (name : string) :
  storage_wf cs -> storage_wf (storage_open cs name).
Proof.
  intros [Hnd Hall]. unfold storage_open.
  destruct (storage_find cs name) eqn:Ef; [split; assumption|].
  split.
  - unfold storage_names. rewrite map_app. apply NoDup_app.
    + exact Hnd.
    + repeat constructor. intros [].
    + intros k Hk [<- | []]. exact (storage_find_names cs _ Ef Hk).
  - apply Forall_app. split; [exact Hall|]. repeat constructor.
Qed.

Lemma storage_delete_wf (cs : CacheStorage) (name : string) :
  storage_wf cs -> storage_wf (storage_delete cs name).
Proof.
  intros [Hnd Hall]. unfold storage_delete. split.
  - clear Hall. unfold storage_names in *. induction cs as [|p cs IH]; [constructor|].
    inversion Hnd as [|x l Hnin Hnd']; subst. cbn [filter].
    destruct (negb (String.eqb (fst p) name)); [|apply IH, Hnd'].
    cbn [map]. constructor; [|apply IH, Hnd'].
    intros Hin. apply Hnin. apply in_map_iff in Hin as [q [Hq Hin]].
    apply filter_In in Hin as [Hin _]. rewrite <- Hq. apply in_map, Hin.
  - apply Forall_forall. intros p Hp. apply filter_In in Hp as [Hp _].
    rewrite Forall_forall in Hall. apply Hall, Hp.
Qed.

Lemma store_batch_wf (batch : list (string * Response)) (c : Cache) :
  cache_wf c -> cache_wf (store_batch batch c).
Proof.
  unfold store_batch. revert c. induction batch as [|p batch IH]; intros c Hc; [exact Hc|].
  cbn [fold_left]. apply IH, cache_insert_wf, Hc.
Qed.

Create HintDb wf discriminated.

Section Invariant.

Variable e : Env.

Lemma preserves_ret {A : Type} (a : A) : preserves_wf (ret a).
Proof. intros w H. exact H. Qed.

Lemma preserves_reject {A : Type} (error : string) : preserves_wf (@reject A error).
Proof. intros w H. exact H. Qed.

Lemma preserves_emit (ev : Event) : preserves_wf (emit ev).
Proof. intros w H. exact H. Qed.

Lemma preserves_fetch (u : string) : preserves_wf (fetch e u).
Proof. intros w H. unfold fetch. destruct (network e u); exact H. Qed.

Lemma preserves_bind {A B : Type} (m : M A) (k : A -> M B) :
  preserves_wf m -> (forall a, preserves_wf (k a)) -> preserves_wf (bind m k).
Proof.
  intros Hm Hk w H. unfold bind. specialize (Hm w H).
  destruct (m w) as [[a|error] w']; [apply Hk, Hm | exact Hm].
Qed.

Lemma preserves_try_catch {A : Type} (m : M A) (handler : string -> M A) :
  preserves_wf m -> (forall error, preserves_wf (handler error)) ->
  preserves_wf (try_catch m handler).
Proof.
  intros Hm Hk w H. unfold try_catch. specialize (Hm w H).
  destruct (m w) as [[a|error] w']; [exact Hm | apply Hk, Hm].
Qed.

Lemma preserves_promise {A : Type} (m : M A) : preserves_wf m -> preserves_wf (promise m).
Proof. intros Hm w H. unfold promise. specialize (Hm w H). destruct (m w). exact Hm. Qed.

Lemma preserves_detached {A : Type} (m : M A) : preserves_wf m -> preserves_wf (detached m).
Proof. intros Hm w H. unfold detached. specialize (Hm w H). destruct (m w). exact Hm. Qed.

Lemma preserves_settle {A : Type} (o : Outcome A) : preserves_wf (settle o).
Proof. destruct o; intros w H; exact H. Qed.

Lemma preserves_async_return (o : Operand) : preserves_wf (async_return o).
Proof. destruct o; [apply preserves_ret | apply preserves_settle]. Qed.

Lemma preserves_promise_all {A : Type} (ps : list (M A)) :
  Forall preserves_wf ps -> preserves_wf (promise_all ps).
Proof.
  induction 1 as [|p ps Hp _ IH]; intros w H; [exact H|].
  cbn [promise_all]. specialize (Hp w H). destruct (p w) as [o w1].
  specialize (IH w1 Hp). destruct (promise_all ps w1) as [os w2]. exact IH.
Qed.

Lemma preserves_storage_op {A : Type} (op : StorageOp)
  (f : CacheStorage -> A * CacheStorage) :
  (forall cs, storage_wf cs -> storage_wf (snd (f cs))) ->
  preserves_wf (storage_op e op f).
Proof.
  intros Hf w H. unfold storage_op. destruct (fault e (clock w) op); [exact H|].
  specialize (Hf _ H). destruct (f (caches w)). exact Hf.
Qed.

Lemma preserves_caches_match (u : string) : preserves_wf (caches_match e u).
Proof. apply preserves_storage_op. intros cs H. exact H. Qed.

Lemma preserves_caches_open (name : string) : preserves_wf (caches_open e name).
Proof. apply preserves_storage_op. intros cs H. apply storage_open_wf, H. Qed.

Lemma preserves_caches_keys : preserves_wf (caches_keys e).
Proof. apply preserves_storage_op. intros cs H. exact H. Qed.

Lemma preserves_caches_delete (name : string) : preserves_wf (caches_delete e name).
Proof. apply preserves_storage_op. intros cs H. apply storage_delete_wf, H. Qed.

Lemma preserves_cache_put (cache : CacheHandle) (u : string) (r : Response) :
  preserves_wf (cache_put e cache u r).
Proof.
  apply preserves_storage_op. intros cs H. apply storage_update_wf; [|exact H].
  intros c. apply cache_insert_wf.
Qed.

Lemma preserves_cache_keys (cache : CacheHandle) : preserves_wf (cache_keys e cache).
Proof. apply preserves_storage_op. intros cs H. exact H. Qed.

Lemma preserves_cache_match (cache : CacheHandle) (u : string) :
  preserves_wf (cache_match e cache u).
Proof. apply preserves_storage_op. intros cs H. exact H. Qed.

Lemma preserves_map_all {A B : Type} (f : A -> M B) (l : list A) :
  (forall a, preserves_wf (f a)) -> preserves_wf (promise_all (map f l)).
Proof.
  intros Hf. apply preserves_promise_all. apply Forall_forall.
  intros p Hp. apply in_map_iff in Hp as [a [<- _]]. apply Hf.
Qed.

End Invariant.

#[local] Hint Resolve preserves_ret preserves_reject preserves_emit preserves_fetch
  preserves_promise preserves_detached preserves_settle preserves_async_return
  preserves_caches_match preserves_caches_open preserves_caches_keys
  preserves_caches_delete preserves_cache_put preserves_cache_keys
  preserves_cache_match : wf.

(** Splits a promise into its steps and closes the primitive ones. *)
Ltac wf_steps :=
  repeat first
    [ solve [auto with wf]
    | apply preserves_bind; [|intros ?]
    | apply preserves_try_catch; [|intros ?]
    | apply preserves_map_all; intros ?
    | apply preserves_promise
    | apply preserves_detached
    | match goal with |- preserves_wf (if ?b then _ else _) => destruct b end
    | match goal with |- preserves_wf (match ?o with _ => _ end) => destruct o end
    | solve [unfold console_log, console_warn, console_error, skipWaiting,
               clients_claim, postMessage; auto with wf] ].

Lemma preserves_cache_addAll (e : Env) (cache : CacheHandle) (urls : list string) :
  preserves_wf (cache_addAll e cache urls).
Proof.
  unfold cache_addAll, fetch_batch. wf_steps.
  apply preserves_storage_op. intros cs H. apply storage_update_wf; [|exact H].
  intros c. apply store_batch_wf.
Qed.

#[local] Hint Resolve preserves_cache_addAll : wf.

Lemma preserves_sum_sizes (e : Env) (cache : CacheHandle) (requests : list string)
  (acc : nat) :
  preserves_wf (sum_sizes e cache requests acc).
Proof.
  revert acc. induction requests as [|k rest IH]; intros acc; cbn [sum_sizes]; wf_steps.
Qed.

#[local] Hint Resolve preserves_sum_sizes : wf.

Lemma preserves_status_loop (e : Env) (names : list string) (st : CacheStatus) :
  preserves_wf (status_loop e names st).
Proof.
  revert st. induction names as [|n names IH]; intros st; cbn [status_loop]; wf_steps.
Qed.

#[local] Hint Resolve preserves_status_loop : wf.

(** Every listener of the worker, and every strategy, keeps the storage
    well formed: partition names stay unique, and so do the URLs of each
    partition. *)
Lemma worker_preserves_wf (e : Env) :
  (forall request, preserves_wf (handle_fetch e request)) /\
  preserves_wf (install_listener e) /\
  preserves_wf (activate_listener e) /\
  (forall data, preserves_wf (message_listener e data)).
Proof.
  split; [|split; [|split]].
  - intros request. unfold handle_fetch.
    destruct (fetch_listener request) as [|[]]; [auto with wf| | | |];
      cbn [run_strategy];
      unfold networkFirstStrategy, cacheFirstStrategy, cacheOnlyStrategy,
        staleWhileRevalidateStrategy; wf_steps.
  - unfold install_listener. wf_steps.
  - unfold activate_listener. wf_steps.
  - intros data. unfold message_listener, cacheUrls, clearAllCaches, getCacheStatus.
    wf_steps.
Qed.

(** ** Cache-first (C7) *)

(** C7, as stated, fails: on a miss, with a network that answers with an ok
    response, the strategy returns the 404 response and stores nothing
    when the runtime partition cannot be opened. *)
Lemma cacheFirstStrategy_open_failure_drops_response :
  storage_match (caches empty_world) (url icon_request) = None /\
  network open_fault_env (url icon_request) = Some icon_response /\
  ok icon_response = true /\
  fst (cacheFirstStrategy open_fault_env icon_request empty_world) =
    Fulfilled (VResponse not_found_response) /\
  fst (cacheFirstStrategy open_fault_env icon_request empty_world) <>
    Fulfilled (VResponse icon_response) /\
  caches (snd (cacheFirstStrategy open_fault_env icon_request empty_world)) = [].
Proof.
  split; [reflexivity|]. split; [reflexivity|]. split; [reflexivity|].
  split; [reflexivity|]. split; [discriminate | reflexivity].
Qed.

(** C7, amended: when its cache lookup fails the cache-first strategy
    rejects, before any fetch.  When the lookup works: if some partition
    holds the request, the cached response is returned and no fetch
    occurs; on a miss the network is fetched.  If the fetch throws, the 404
    response is returned.  A response that is not ok is returned and not
    stored.  An ok response is returned when the runtime partition can be
    opened, and is in the runtime partition once the write, which the
    strategy does not wait for, has settled without failing; it is
    returned and not stored when only the write fails; and it is dropped
    for the 404 response when the runtime partition cannot be opened. *)
Theorem cacheFirstStrategy_spec (e : Env) (request : Request) (w : World) :
  (forall error, fault e (clock w) OpMatch = Some error ->
     fst (cacheFirstStrategy e request w) = Rejected error /\
     trace (snd (cacheFirstStrategy e request w)) = trace w) /\
  (fault e (clock w) OpMatch = None ->
   (forall r, storage_match (caches w) (url request) = Some r ->
      cacheFirstStrategy e request w =
        (Fulfilled (VResponse r),
         {| caches := caches w; trace := trace w; clock := S (clock w) |})) /\
   (storage_match (caches w) (url request) = None ->
    (network e (url request) = None ->
       fst (cacheFirstStrategy e request w) = Fulfilled (VResponse not_found_response) /\
       status not_found_response = 404%Z /\
       caches (snd (cacheFirstStrategy e request w)) = caches w) /\
    (forall r, network e (url request) = Some r -> ok r = false ->
       fst (cacheFirstStrategy e request w) = Fulfilled (VResponse r) /\
       trace (snd (cacheFirstStrategy e request w)) = trace w ++ [EvFetch (url request)] /\
       caches (snd (cacheFirstStrategy e request w)) = caches w) /\
    (forall r, network e (url request) = Some r -> ok r = true ->
       (forall error, fault e (S (clock w)) OpOpen = Some error ->
          fst (cacheFirstStrategy e request w) =
            Fulfilled (VResponse not_found_response) /\
          caches (snd (cacheFirstStrategy e request w)) = caches w) /\
       (fault e (S (clock w)) OpOpen = None ->
          fst (cacheFirstStrategy e request w) = Fulfilled (VResponse r) /\
          trace (snd (cacheFirstStrategy e request w)) =
            trace w ++ [EvFetch (url request)] /\
          (fault e (S (S (clock w))) OpPut = None ->
             cache_lookup
               (partition_of (caches (snd (cacheFirstStrategy e request w)))
                  RUNTIME_CACHE_NAME)
               (url request) = Some r /\
             storage_match (caches (snd (cacheFirstStrategy e request w)))
               (url request) = Some r) /\
          (forall error, fault e (S (S (clock w))) OpPut = Some error ->
             caches (snd (cacheFirstStrategy e request w)) =
               storage_open (caches w) RUNTIME_CACHE_NAME))))).
Proof.
  split.
  - intros error Hf. unfold cacheFirstStrategy, bind, caches_match.
    rewrite (storage_op_faulty e _ _ _ error) by exact Hf. split; reflexivity.
  - intros Hm. unfold cacheFirstStrategy, bind.
    rewrite caches_match_healthy by exact Hm. split.
    + intros r ->. reflexivity.
    + intros Hmiss. rewrite Hmiss. cbn [of_lookup truthy].
      unfold try_catch, bind, fetch, detached, caches_open, cache_put, console_error,
        emit, ret.
      split; [|split].
      * intros ->. cbn. auto.
      * intros r -> Hok. rewrite Hok. cbn. auto.
      * intros r -> Hok. rewrite Hok. cbn [caches trace clock]. split.
        -- intros error Ho. rewrite (storage_op_faulty e _ _ _ error) by exact Ho.
           cbn. auto.
        -- intros Ho. rewrite storage_op_healthy by exact Ho.
           cbn [fst snd caches trace clock]. split; [|split; [|split]].
           ++ destruct (storage_op e OpPut _ _). reflexivity.
           ++ unfold storage_op. cbn [clock trace].
              destruct (fault e (S (S (clock w))) OpPut); reflexivity.
           ++ intros Hp. rewrite storage_op_healthy by exact Hp. cbn. split.
              ** rewrite partition_of_put. apply cache_lookup_insert_same.
              ** apply storage_match_put. exact Hmiss.
           ++ intros error Hp. rewrite (storage_op_faulty e _ _ _ error) by exact Hp.
              reflexivity.
Qed.

Lemma cacheFirstStrategy_spec_witness :
  cacheFirstStrategy offline_env icon_request icon_world =
    (Fulfilled (VResponse icon_response),
     {| caches := caches icon_world; trace := []; clock := 1 |}) /\
  fst (cacheFirstStrategy offline_env icon_request empty_world) =
    Fulfilled (VResponse not_found_response) /\
  storage_match (caches (snd (cacheFirstStrategy icon_env icon_request empty_world)))
    (url icon_request) = Some icon_response.
Proof.
  destruct (cacheFirstStrategy_spec offline_env icon_request icon_world) as [_ Hhit].
  destruct (cacheFirstStrategy_spec offline_env icon_request empty_world) as [_ Hoff].
  destruct (cacheFirstStrategy_spec icon_env icon_request empty_world) as [_ Hon].
  split; [|split].
  - exact (proj1 (Hhit eq_refl) icon_response eq_refl).
  - exact (proj1 (proj1 (proj2 (Hoff eq_refl) eq_refl) eq_refl)).
  - destruct (proj2 (Hon eq_refl) eq_refl) as [_ [_ Hok]].
    destruct (Hok icon_response eq_refl eq_refl) as [_ Hopen].
    destruct (Hopen eq_refl) as [_ [_ [Hput _]]].
    exact (proj2 (Hput eq_refl)).
Defined.

(** ** Network-first (C1) *)

(** With the network down and the request uncached, a navigation resolves
    to the outcome of the lookup of the offline page: the promise that
    [caches.match] returns is an object, so the right operand of [||] is
    never taken. *)
Lemma networkFirstStrategy_navigation_fallback (e : Env) (request : Request) (w : World) :
  healthy e ->
  network e (url request) = None ->
  storage_match (caches w) (url request) = None ->
  mode request = "navigate" ->
  fst (networkFirstStrategy e request w) =
  Fulfilled (of_lookup (storage_match (caches w) (resolve e "/offline.html"))).
Proof.
  intros Hh Hnet Hmiss Hmode.
  unfold networkFirstStrategy, try_catch, bind, fetch, console_log, emit, promise.
  rewrite Hnet. rewrite caches_match_healthy by apply Hh. cbn [caches].
  rewrite Hmiss. cbn [of_lookup truthy]. rewrite Hmode. cbn [String.eqb Ascii.eqb Bool.eqb].
  rewrite caches_match_healthy by apply Hh. reflexivity.
Qed.

Lemma networkFirstStrategy_success (e : Env) (request : Request) (w : World) (r : Response) :
  healthy e ->
  network e (url request) = Some r -> ok r = true ->
  fst (networkFirstStrategy e request w) = Fulfilled (VResponse r) /\
  cache_lookup
    (partition_of (caches (snd (networkFirstStrategy e request w))) RUNTIME_CACHE_NAME)
    (url request) = Some r.
Proof.
  intros Hh Hnet Hok.
  unfold networkFirstStrategy, try_catch, bind, fetch, detached, caches_open, cache_put, ret.
  rewrite Hnet, Hok. rewrite !storage_op_healthy by apply Hh. cbn.
  split; [reflexivity|]. rewrite partition_of_put. apply cache_lookup_insert_same.
Qed.

(** C1, on the code: the navigation request for /api/user/session is routed
    to the network-first strategy; with the network unreachable and nothing
    cached the strategy resolves to undefined, not to the offline page it
    builds in the right operand of [||]. *)
Theorem networkFirst_offline_navigation_is_undefined :
  fetch_listener session_request = RespondWith NetworkFirst /\
  network offline_env (url session_request) = None /\
  storage_match (caches empty_world) (url session_request) = None /\
  fst (networkFirstStrategy offline_env session_request empty_world) =
    Fulfilled VUndefined /\
  status offline_response = 200%Z /\
  headers offline_response = [("Content-Type", "text/html")] /\
  fst (networkFirstStrategy offline_env session_request empty_world) <>
    Fulfilled (VResponse offline_response).
Proof.
  split; [reflexivity|]. split; [reflexivity|]. split; [reflexivity|].
  split; [reflexivity|]. split; [reflexivity|]. split; [reflexivity|].
  discriminate.
Qed.

(** ** Stale-while-revalidate (C2) *)

(** What the strategy resolves to: the cached response when there is one,
    whatever the network does; otherwise the network response; otherwise
    null, the settlement of the revalidation promise. *)
Lemma staleWhileRevalidateStrategy_result (e : Env) (request : Request) (w : World) :
  healthy e ->
  fst (staleWhileRevalidateStrategy e request w) =
  Fulfilled
    match storage_match (caches w) (url request) with
    | Some r => VResponse r
    | None =>
        match network e (url request) with
        | Some r => VResponse r
        | None => VNull
        end
    end.
Proof.
  intros Hh.
  unfold staleWhileRevalidateStrategy, bind, promise, try_catch, bind, fetch.
  rewrite caches_match_healthy by apply Hh. cbn [caches trace clock].
  destruct (network e (url request)) as [r|].
  - destruct (ok r).
    + unfold detached, bind, caches_open, cache_put.
      rewrite !storage_op_healthy by apply Hh. cbn.
      destruct (storage_match (caches w) (url request)); reflexivity.
    + cbn. destruct (storage_match (caches w) (url request)); reflexivity.
  - cbn. destruct (storage_match (caches w) (url request)); reflexivity.
Qed.

(** C2, on the code: a request routed to the stale-while-revalidate
    strategy, with nothing cached and the network unreachable, resolves to
    null, not to the 503 response of the last operand of [||]. *)
Theorem staleWhileRevalidate_offline_miss_is_null :
  fetch_listener page_request = RespondWith StaleWhileRevalidate /\
  network offline_env (url page_request) = None /\
  storage_match (caches empty_world) (url page_request) = None /\
  fst (staleWhileRevalidateStrategy offline_env page_request empty_world) =
    Fulfilled VNull /\
  status unavailable_response = 503%Z /\
  fst (staleWhileRevalidateStrategy offline_env page_request empty_world) <>
    Fulfilled (VResponse unavailable_response).
Proof.
  split; [reflexivity|]. split; [reflexivity|]. split; [reflexivity|].
  split; [reflexivity|]. split; [reflexivity|]. discriminate.
Qed.

(** ** Install (C3, C4) *)

Lemma world_eta (w : World) :
  {| caches := caches w; trace := trace w; clock := clock w |} = w.
Proof. destruct w; reflexivity. Qed.

Lemma fetch_batch_run (e : Env) (urls : list string) (w : World) :
  fetch_batch e urls w =
  (batch_outcome e urls,
   {| caches := caches w;
      trace := trace w ++ map (fun u => EvFetch (resolve e u)) urls;
      clock := clock w |}).
Proof.
  unfold fetch_batch. revert w.
  induction urls as [|u urls IH]; intros w.
  - simpl. rewrite app_nil_r, world_eta. reflexivity.
  - cbn [map promise_all batch_outcome]. unfold bind at 1, fetch at 1.
    destruct (network e (resolve e u)) as [r|].
    + destruct (ok r); unfold ret, reject; rewrite IH; cbn [caches trace clock];
        rewrite <- app_assoc; cbn [app];
        destruct (batch_outcome e urls); reflexivity.
    + rewrite IH; cbn [caches trace clock]. rewrite <- app_assoc; cbn [app].
      reflexivity.
Qed.


Lemma batch_outcome_succeeds (e : Env) (urls : list string) :
  Forall (fetch_succeeds e) urls ->
  exists batch, batch_outcome e urls = Fulfilled batch /\
                map fst batch = map (resolve e) urls.
Proof.
  induction 1 as [|u urls [r [En Eok]] _ [batch [IH Hk]]].
  - exists []. split; reflexivity.
  - cbn [batch_outcome]. rewrite En, Eok, IH.
    exists ((resolve e u, r) :: batch). split; [reflexivity|].
    cbn [map fst]. rewrite Hk. reflexivity.
Qed.

(** The whole run of the install listener. *)
Lemma install_listener_run (e : Env) (w : World) :
  healthy e ->
  install_listener e w =
  (Fulfilled tt,
   match batch_outcome e STATIC_ASSETS with
   | Fulfilled batch =>
       {| caches :=
            storage_update (storage_open (caches w) STATIC_CACHE_NAME)
              STATIC_CACHE_NAME (store_batch batch);
          trace := trace w ++ install_events e EvSkipWaiting;
          clock := S (S (clock w)) |}
   | Rejected error =>
       {| caches := storage_open (caches w) STATIC_CACHE_NAME;
          trace := trace w ++ install_events e (install_failure_log error);
          clock := S (clock w) |}
   end).
Proof.
  intros Hh.
  unfold install_listener, bind, try_catch, console_log, console_error, skipWaiting,
    emit, caches_open, cache_addAll, bind.
  cbn [caches trace clock].
  run_storage Hh.
  rewrite fetch_batch_run. cbn [caches trace clock].
  unfold install_events, installing_log, caching_log, install_failure_log.
  destruct (batch_outcome e STATIC_ASSETS) as [batch|error].
  - run_storage Hh.
    rewrite <- !app_assoc. reflexivity.
  - cbn [caches trace clock]. rewrite <- !app_assoc. reflexivity.
Qed.





(** ** Prefetch on demand *)

Lemma partition_of_update (cs : CacheStorage) (name : string) (f : Cache -> Cache) :
  storage_find cs name <> None ->
  partition_of (storage_update cs name f) name = f (partition_of cs name).
Proof.
  intros Hf. unfold partition_of. rewrite storage_find_update.
  destruct (storage_find cs name); [reflexivity | congruence].
Qed.






(** The per-URL work of [cacheUrls] never rejects, and moves the storage
    by [prefetch_step]. *)
Lemma cacheUrls_batch_run (e : Env) (urls : list string) (w : World) :
  healthy e ->
  exists l w',
    promise_all
      (map (fun u =>
              try_catch
                (response <- fetch e (resolve e u) ;;
                 if ok response then
                   cache_put e RUNTIME_CACHE_NAME (resolve e u) response ;;;
                   console_log "Cached:" [u]
                 else ret tt)
                (fun error => console_warn "Failed to cache:" [u; error]))
           urls) w = (Fulfilled l, w') /\
    caches w' = fold_left (prefetch_step e) urls (caches w).
Proof.
  intros Hh. revert w. induction urls as [|u urls IH]; intros w.
  - exists [], w. split; reflexivity.
  - cbn [map promise_all fold_left].
    set (rest := promise_all (map _ urls)) in *.
    unfold try_catch at 1, bind at 1, fetch at 1, prefetch_step at 2.
    destruct (network e (resolve e u)) as [r|].
    + destruct (ok r).
      * unfold bind, cache_put, console_log, emit.
        run_storage Hh.
        match goal with |- context [rest ?w1] =>
          destruct (IH w1) as [l [w' [Hrun Hc]]] end.
        rewrite Hrun. exists (tt :: l), w'. split; [reflexivity | exact Hc].
      * unfold ret.
        match goal with |- context [rest ?w1] =>
          destruct (IH w1) as [l [w' [Hrun Hc]]] end.
        rewrite Hrun. exists (tt :: l), w'. split; [reflexivity | exact Hc].
    + unfold console_warn, emit.
      match goal with |- context [rest ?w1] =>
        destruct (IH w1) as [l [w' [Hrun Hc]]] end.
      rewrite Hrun. exists (tt :: l), w'. split; [reflexivity | exact Hc].
Qed.

Lemma cacheUrls_run (e : Env) (urls : list string) (w : World) :
  healthy e ->
  fst (cacheUrls e urls w) = Fulfilled tt /\
  caches (snd (cacheUrls e urls w)) =
    fold_left (prefetch_step e) urls (storage_open (caches w) RUNTIME_CACHE_NAME).
Proof.
  intros Hh.
  assert (H : exists w', cacheUrls e urls w = (Fulfilled tt, w') /\
                caches w' =
                fold_left (prefetch_step e) urls
                  (storage_open (caches w) RUNTIME_CACHE_NAME)).
  { unfold cacheUrls. unfold try_catch at 1. unfold bind at 1, caches_open.
    rewrite storage_op_healthy by apply Hh. cbn [fst snd].
    unfold bind at 1.
    match goal with |- context [promise_all _ ?w1] =>
      destruct (cacheUrls_batch_run e urls w1 Hh) as [l [w' [Hrun Hc]]] end.
    rewrite Hrun. cbn. eexists. split; [reflexivity | exact Hc]. }
  destruct H as [w' [-> Hc]]. split; [reflexivity | exact Hc].
Qed.


Lemma try_catch_unit_fulfils (m : M unit) (handler : string -> M unit) (w : World) :
  (forall error w', fst (handler error w') = Fulfilled tt) ->
  fst (try_catch m handler w) = Fulfilled tt.
Proof.
  intros Hh. unfold try_catch. destruct (m w) as [[[]|error] w']; [reflexivity|].
  apply Hh.
Qed.

Lemma storage_find_open_other (cs : CacheStorage) (name n : string) :
  name <> n -> storage_find (storage_open cs n) name = storage_find cs name.
Proof.
  intros Hne. unfold storage_open. destruct (storage_find cs n); [reflexivity|].
  rewrite storage_find_app. destruct (storage_find cs name); [reflexivity|].
  cbn. destruct (String.eqb_spec n name); [congruence | reflexivity].
Qed.



Lemma static_assets_plain : forallb plain_path ("/offline.html" :: STATIC_ASSETS) = true.
Proof. reflexivity. Qed.




(** ** Activate (C6) *)

Lemma filter_filter {A : Type} (f g : A -> bool) (l : list A) :
  filter f (filter g l) = filter (fun x => g x && f x) l.
Proof.
  induction l as [|x l IH]; simpl; [reflexivity|].
  destruct (g x); simpl; [destruct (f x)|]; rewrite IH; reflexivity.
Qed.

Lemma storage_delete_fold (names : list string) (cs : CacheStorage) :
  fold_left storage_delete names cs =
  filter (fun p => negb (existsb (String.eqb (fst p)) names)) cs.
Proof.
  revert cs. induction names as [|n names IH]; intros cs; cbn [fold_left existsb].
  - symmetry. apply forallb_filter_id. apply forallb_forall. reflexivity.
  - rewrite IH. unfold storage_delete. rewrite filter_filter.
    apply filter_ext. intros p. rewrite negb_orb. reflexivity.
Qed.

Lemma sweep_is_filter (cs : CacheStorage) :
  fold_left storage_delete (swept_names cs) cs = filter survives cs.
Proof.
  rewrite storage_delete_fold. apply filter_ext_in. intros p Hin.
  unfold survives. f_equal.
  destruct (is_old_cache (fst p)) eqn:E.
  - apply existsb_exists. exists (fst p). split; [|apply String.eqb_refl].
    apply filter_In. split; [|exact E]. apply in_map, Hin.
  - destruct (existsb _ _) eqn:Ex; [|reflexivity].
    apply existsb_exists in Ex as [n [Hn He]].
    apply String.eqb_eq in He. subst n.
    apply filter_In in Hn as [_ Hn]. congruence.
Qed.

Lemma deletions_run (e : Env) (names : list string) (w : World) :
  healthy e ->
  exists results,
    promise_all
      (map (fun cacheName =>
              console_log "Deleting old cache:" [cacheName] ;;;
              caches_delete e cacheName)
           names) w =
    (Fulfilled results,
     {| caches := fold_left storage_delete names (caches w);
        trace := trace w ++ map deleting_log names;
        clock := length names + clock w |}).
Proof.
  intros Hh. revert w. induction names as [|n names IH]; intros w.
  - exists []. cbn. rewrite app_nil_r, world_eta. reflexivity.
  - cbn [map promise_all fold_left length].
    set (rest := promise_all (map _ names)) in *.
    unfold bind, console_log, emit, caches_delete.
    run_storage Hh.
    match goal with |- context [rest ?w1] => destruct (IH w1) as [results Hrun] end.
    rewrite Hrun. cbn [caches trace clock].
    eexists. rewrite <- app_assoc. cbn [app]. unfold deleting_log at 2.
    rewrite Nat.add_succ_r. reflexivity.
Qed.

(** The whole run of the activate listener. *)
Lemma activate_listener_run (e : Env) (w : World) :
  healthy e ->
  activate_listener e w =
  (Fulfilled tt,
   {| caches := filter survives (caches w);
      trace :=
        trace w ++ [activating_log] ++
        map deleting_log (swept_names (caches w)) ++ [EvClientsClaim];
      clock := length (swept_names (caches w)) + S (clock w) |}).
Proof.
  intros Hh. unfold activate_listener. unfold bind at 1, console_log at 1, emit.
  unfold try_catch, bind at 1, caches_keys.
  run_storage Hh.
  unfold bind at 1.
  match goal with |- context [promise_all _ ?w1] =>
    destruct (deletions_run e (swept_names (caches w)) w1 Hh) as [results Hrun] end.
  unfold swept_names in Hrun at 1. rewrite Hrun. cbn [caches trace clock].
  unfold clients_claim, emit. cbn [caches trace clock].
  rewrite sweep_is_filter. rewrite <- !app_assoc. reflexivity.
Qed.

Lemma startsWith_app (s p q : string) :
  startsWith s (String.append p q) = true -> startsWith s p = true.
Proof.
  revert s. induction p as [|a p IH]; intros s H; [reflexivity|].
  destruct s as [|b s]; simpl in *; [discriminate|].
  apply andb_true_iff in H as [Ha H]. rewrite Ha. simpl. apply IH, H.
Qed.

Lemma is_old_cache_spec (name : string) :
  is_old_cache name = true <->
  startsWith name "invomodo-" = true /\
  name <> STATIC_CACHE_NAME /\ name <> RUNTIME_CACHE_NAME.
Proof.
  unfold is_old_cache, array_includes. cbn [existsb].
  rewrite andb_true_iff, negb_true_iff, orb_false_r, orb_false_iff.
  destruct (String.eqb_spec name STATIC_CACHE_NAME);
    destruct (String.eqb_spec name RUNTIME_CACHE_NAME); intuition congruence.
Qed.

Lemma NoDup_names_filter (f : string * Cache -> bool) (cs : CacheStorage) :
  NoDup (storage_names cs) -> NoDup (storage_names (filter f cs)).
Proof.
  unfold storage_names. induction cs as [|p cs IH]; simpl; intros H; [constructor|].
  inversion H as [|x l Hnin Hnd]; subst.
  destruct (f p); simpl; [|apply IH, Hnd].
  constructor; [|apply IH, Hnd].
  intros Hin. apply Hnin. apply in_map_iff in Hin as [q [Hq Hin]].
  apply filter_In in Hin as [Hin _]. rewrite <- Hq. apply in_map, Hin.
Qed.

Lemma at_most_one_named (f : string * Cache -> bool) (name : string) (cs : CacheStorage) :
  NoDup (storage_names cs) ->
  (forall p, In p cs -> f p = true -> fst p = name) ->
  length (filter f cs) <= 1.
Proof.
  unfold storage_names. induction cs as [|p cs IH]; simpl; intros Hnd Hname; [lia|].
  inversion Hnd as [|x l Hnin Hnd']; subst.
  destruct (f p) eqn:Ep.
  - assert (Hnone : filter f cs = []).
    { destruct (filter f cs) as [|q l] eqn:Eq; [reflexivity|]. exfalso.
      assert (Hq : In q (filter f cs)) by (rewrite Eq; left; reflexivity).
      apply filter_In in Hq as [Hq Hfq]. apply Hnin.
      rewrite (Hname p (or_introl eq_refl) Ep).
      rewrite <- (Hname q (or_intror Hq) Hfq). apply in_map, Hq. }
    rewrite Hnone. simpl. lia.
  - apply IH; [exact Hnd'|]. intros q Hq. apply Hname. right. exact Hq.
Qed.

Lemma swept_names_no_claim (cs : CacheStorage) :
  ~ In EvClientsClaim ([activating_log] ++ map deleting_log (swept_names cs)).
Proof.
  intros [H | H]; [discriminate H|].
  apply in_map_iff in H as [n [H _]]. discriminate H.
Qed.

Lemma deletions_run_general (e : Env) (names : list string) (w : World) :
  exists o,
    promise_all
      (map (fun cacheName =>
              console_log "Deleting old cache:" [cacheName] ;;;
              caches_delete e cacheName)
           names) w =
    (o,
     {| caches := sweep_from e (clock w) names (caches w);
        trace := trace w ++ map deleting_log names;
        clock := length names + clock w |}) /\
    match deletions_fault e (clock w) names with
    | None => exists results, o = Fulfilled results
    | Some error => o = Rejected error
    end.
Proof.
  revert w. induction names as [|n names IH]; intros w.
  - exists (Fulfilled []). cbn. rewrite app_nil_r, world_eta. eauto.
  - cbn [map promise_all sweep_from deletions_fault length].
    set (rest := promise_all (map _ names)) in *.
    unfold bind, console_log, emit, caches_delete, storage_op.
    cbn [caches trace clock].
    destruct (fault e (clock w) OpDelete) as [error|];
      match goal with |- context [rest ?w1] => destruct (IH w1) as [o [Hrun Ho]] end;
      rewrite Hrun; cbn [caches trace clock] in *;
      rewrite <- app_assoc, Nat.add_succ_r; cbn [app]; unfold deleting_log at 2.
    + eexists. split; [reflexivity | reflexivity].
    + destruct (deletions_fault e (S (clock w)) names) as [error|].
      * subst o. eexists. split; reflexivity.
      * destruct Ho as [results ->]. eexists. split; [reflexivity | eauto].
Qed.

Lemma sweep_from_all (e : Env) (clk : nat) (names : list string) (cs : CacheStorage) :
  deletions_fault e clk names = None ->
  sweep_from e clk names cs = fold_left storage_delete names cs.
Proof.
  revert clk cs. induction names as [|n names IH]; intros clk cs H; [reflexivity|].
  cbn [deletions_fault] in H. cbn [sweep_from fold_left].
  destruct (fault e clk OpDelete); [discriminate H | apply IH, H].
Qed.

Lemma sweep_from_subset (e : Env) (clk : nat) (names : list string) (cs : CacheStorage)
  (p : string * Cache) :
  In p (sweep_from e clk names cs) -> In p cs.
Proof.
  revert clk cs. induction names as [|n names IH]; intros clk cs H; [exact H|].
  cbn [sweep_from] in H. apply IH in H.
  destruct (fault e clk OpDelete); [exact H|].
  apply filter_In in H as [H _]. exact H.
Qed.

Lemma sweep_from_keeps (e : Env) (clk : nat) (names : list string) (cs : CacheStorage)
  (p : string * Cache) :
  In p cs -> ~ In (fst p) names -> In p (sweep_from e clk names cs).
Proof.
  revert clk cs. induction names as [|n names IH]; intros clk cs Hin Hnin; [exact Hin|].
  cbn [sweep_from]. apply IH.
  - destruct (fault e clk OpDelete); [exact Hin|].
    apply filter_In. split; [exact Hin|]. apply negb_true_iff.
    apply String.eqb_neq. intros Heq. apply Hnin. left. symmetry. exact Heq.
  - intros H. apply Hnin. right. exact H.
Qed.

(** The whole run of the activate listener, whatever fails. *)
Lemma activate_listener_general (e : Env) (w : World) :
  activate_listener e w =
  (Fulfilled tt,
   match fault e (clock w) OpKeys with
   | Some error =>
       {| caches := caches w;
          trace := trace w ++ [activating_log; activation_failure_log error];
          clock := S (clock w) |}
   | None =>
       {| caches := sweep_from e (S (clock w)) (swept_names (caches w)) (caches w);
          trace :=
            trace w ++ [activating_log] ++
            map deleting_log (swept_names (caches w)) ++
            [match deletions_fault e (S (clock w)) (swept_names (caches w)) with
             | Some error => activation_failure_log error
             | None => EvClientsClaim
             end];
          clock := length (swept_names (caches w)) + S (clock w) |}
   end).
Proof.
  unfold activate_listener. unfold bind at 1, console_log at 1, emit.
  unfold try_catch, bind at 1, caches_keys, storage_op. cbn [caches trace clock].
  destruct (fault e (clock w) OpKeys) as [error|].
  - unfold console_error, emit. cbn [caches trace clock].
    rewrite <- app_assoc. reflexivity.
  - unfold bind at 1.
    match goal with |- context [promise_all _ ?w1] =>
      destruct (deletions_run_general e (swept_names (caches w)) w1) as [o [Hrun Ho]]
    end.
    unfold swept_names in Hrun at 1. rewrite Hrun. cbn [caches trace clock] in *.
    destruct (deletions_fault e (S (clock w)) (swept_names (caches w))) as [error|].
    + subst o. unfold console_error, emit. cbn [caches trace clock].
      rewrite <- !app_assoc. reflexivity.
    + destruct Ho as [results ->]. unfold clients_claim, emit.
      cbn [caches trace clock]. rewrite <- !app_assoc. reflexivity.
Qed.

Lemma healthy_activation (e : Env) (w : World) :
  healthy e -> activation_fault e w = None.
Proof.
  intros Hh. unfold activation_fault. rewrite Hh.
  generalize (S (clock w)). induction (swept_names (caches w)) as [|n names IH];
    intros clk; [reflexivity|].
  cbn [deletions_fault]. rewrite Hh. apply IH.
Qed.

(** C6, as stated, fails: when a deletion fails, the old partition is still
    there after the activate step, the failure is logged and the clients
    are not claimed. *)
Lemma activate_failed_deletion_claims_nothing :
  In "invomodo-static-v0.9.0"
     (storage_names (caches (snd (activate_listener delete_fault_env upgrade_world)))) /\
  In (activation_failure_log "QuotaExceededError")
     (trace (snd (activate_listener delete_fault_env upgrade_world))) /\
  ~ In EvClientsClaim (trace (snd (activate_listener delete_fault_env upgrade_world))).
Proof.
  split; [cbv; tauto|]. split; [cbv; tauto|].
  intros H. cbv in H. intuition discriminate.
Qed.

(** C6, amended: the promise of the activate step always fulfils, it never
    adds a partition and never deletes one whose name does not start with
    the prefix of the system or is a current name.  When listing the
    partitions and every deletion succeed, after the step every partition
    whose name starts with the prefix of the system and is neither the
    current static nor the current runtime name is gone, and the clients are
    claimed last, after the sweep; so at most one partition with the
    static prefix and at most one with the runtime prefix is left, the
    current one.  When listing the partitions or a deletion fails, the
    failure is logged and the clients are not claimed. *)
Theorem activate_sweeps_old_partitions (e : Env) (w : World) :
  NoDup (storage_names (caches w)) ->
  fst (activate_listener e w) = Fulfilled tt /\
  (forall name c,
     In (name, c) (caches w) ->
     startsWith name "invomodo-" = false \/
     name = STATIC_CACHE_NAME \/ name = RUNTIME_CACHE_NAME ->
     In (name, c) (caches (snd (activate_listener e w)))) /\
  (forall p, In p (caches (snd (activate_listener e w))) -> In p (caches w)) /\
  (activation_fault e w = None ->
   (forall name,
      startsWith name "invomodo-" = true ->
      name <> STATIC_CACHE_NAME -> name <> RUNTIME_CACHE_NAME ->
      ~ In name (storage_names (caches (snd (activate_listener e w))))) /\
   (exists sweep,
      trace (snd (activate_listener e w)) = trace w ++ sweep ++ [EvClientsClaim] /\
      ~ In EvClientsClaim sweep) /\
   length (filter (fun p => startsWith (fst p) "invomodo-static-")
             (caches (snd (activate_listener e w)))) <= 1 /\
   length (filter (fun p => startsWith (fst p) "invomodo-runtime-")
             (caches (snd (activate_listener e w)))) <= 1) /\
  (forall error, activation_fault e w = Some error ->
   exists events,
     trace (snd (activate_listener e w)) =
       trace w ++ events ++ [activation_failure_log error] /\
     ~ In EvClientsClaim (events ++ [activation_failure_log error])).
Proof.
  intros Hnd. rewrite activate_listener_general. cbn [fst].
  split; [reflexivity|]. unfold activation_fault.
  destruct (fault e (clock w) OpKeys) as [error0|]; cbn [snd caches trace].
  { split; [intros name c Hin _; exact Hin|]. split; [intros p Hp; exact Hp|].
    split; [discriminate|]. intros error H. injection H as ->.
    exists [activating_log]. split; [reflexivity|].
    intros [H | [H | []]]; discriminate H. }
  split.
  { intros name c Hin Hkeep. apply sweep_from_keeps; [exact Hin|]. cbn [fst].
    intros Hold. apply filter_In in Hold as [_ Hold].
    apply is_old_cache_spec in Hold as [Hpre [Hn1 Hn2]].
    destruct Hkeep as [Hk | [Hk | Hk]]; congruence. }
  split; [intros p; apply sweep_from_subset|].
  split.
  - intros Hok. rewrite Hok. rewrite sweep_from_all by exact Hok.
    rewrite sweep_is_filter.
    assert (Hleft : forall p, In p (filter survives (caches w)) ->
              startsWith (fst p) "invomodo-" = true ->
              fst p = STATIC_CACHE_NAME \/ fst p = RUNTIME_CACHE_NAME).
    { intros p Hp Hpre. apply filter_In in Hp as [_ Hs].
      unfold survives in Hs. apply negb_true_iff in Hs.
      destruct (String.eqb_spec (fst p) STATIC_CACHE_NAME) as [|Hn1]; [auto|].
      destruct (String.eqb_spec (fst p) RUNTIME_CACHE_NAME) as [|Hn2]; [auto|].
      assert (Ho : is_old_cache (fst p) = true) by (apply is_old_cache_spec; auto).
      congruence. }
    split; [|split; [|split]].
    + intros name Hpre Hn1 Hn2 Hin.
      apply in_map_iff in Hin as [p [Hp Hin]]. subst name.
      destruct (Hleft p Hin Hpre); contradiction.
    + exists ([activating_log] ++ map deleting_log (swept_names (caches w))).
      split; [rewrite <- !app_assoc; reflexivity | apply swept_names_no_claim].
    + apply (at_most_one_named _ STATIC_CACHE_NAME).
      * apply NoDup_names_filter, Hnd.
      * intros p Hp Hpre.
        destruct (Hleft p Hp (startsWith_app (fst p) "invomodo-" "static-" Hpre))
          as [Hs | Hr]; [exact Hs|].
        rewrite Hr in Hpre. discriminate Hpre.
    + apply (at_most_one_named _ RUNTIME_CACHE_NAME).
      * apply NoDup_names_filter, Hnd.
      * intros p Hp Hpre.
        destruct (Hleft p Hp (startsWith_app (fst p) "invomodo-" "runtime-" Hpre))
          as [Hs | Hr]; [|exact Hr].
        rewrite Hs in Hpre. discriminate Hpre.
  - intros error Hf. rewrite Hf.
    exists ([activating_log] ++ map deleting_log (swept_names (caches w))).
    split; [rewrite <- !app_assoc; reflexivity|].
    intros H. apply in_app_or in H as [H | [H | []]]; [|discriminate H].
    exact (swept_names_no_claim _ H).
Qed.

Lemma activate_sweeps_old_partitions_witness :
  NoDup (storage_names (caches upgrade_world)) /\
  activation_fault offline_env upgrade_world = None /\
  ~ In "invomodo-static-v0.9.0"
      (storage_names (caches (snd (activate_listener offline_env upgrade_world)))) /\
  In ("invomodo-runtime-v1.0.0", [(url icon_request, icon_response)])
     (caches (snd (activate_listener offline_env upgrade_world))).
Proof.
  assert (Hnd : NoDup (storage_names (caches upgrade_world))).
  { repeat constructor; simpl; intuition discriminate. }
  destruct (activate_sweeps_old_partitions offline_env upgrade_world Hnd)
    as [_ [Hkept [_ [Hok _]]]].
  split; [exact Hnd|]. split; [reflexivity|]. split.
  - destruct (Hok eq_refl) as [Hgone _].
    apply Hgone; [reflexivity | discriminate | discriminate].
  - apply Hkept; [right; left; reflexivity | right; right; reflexivity].
Defined.

(** ** Cache status (C9) *)

Lemma sum_sizes_run (e : Env) (cache : CacheHandle) (requests : list string)
  (acc : nat) (w : World) :
  sum_sizes e cache requests acc w =
  (Fulfilled (acc + measured e (partition_of (caches w) cache) (clock w) requests),
   {| caches := caches w;
      trace := trace w ++ read_warnings e (clock w) requests;
      clock := length requests + clock w |}).
Proof.
  revert acc w. induction requests as [|k rest IH]; intros acc w.
  - cbn. rewrite Nat.add_0_r, app_nil_r, world_eta. reflexivity.
  - cbn [sum_sizes measured read_warnings length].
    unfold bind at 1, try_catch, bind at 1, cache_match, storage_op.
    destruct (fault e (clock w) OpCacheMatch) as [error|].
    + unfold bind, console_warn, emit, ret. rewrite IH. cbn [caches trace clock].
      rewrite <- app_assoc, Nat.add_succ_r. reflexivity.
    + destruct (cache_lookup (partition_of (caches w) cache) k) as [r|];
        cbn [of_lookup lookup_size]; unfold ret; rewrite IH; cbn [caches trace clock];
        rewrite Nat.add_succ_r; cbn [app Nat.add].
      * rewrite Nat.add_assoc. reflexivity.
      * reflexivity.
Qed.

Lemma measured_le (e : Env) (c : Cache) (clk : nat) (requests : list string) :
  measured e c clk requests <=
  list_sum (map (fun k => lookup_size (cache_lookup c k)) requests).
Proof.
  revert clk. induction requests as [|k rest IH]; intros clk;
    cbn [measured map list_sum fold_right]; [lia|].
  specialize (IH (S clk)). unfold list_sum in IH. destruct (fault e clk OpCacheMatch); lia.
Qed.

Lemma measured_healthy (e : Env) (c : Cache) (clk : nat) (requests : list string) :
  healthy e ->
  measured e c clk requests =
  list_sum (map (fun k => lookup_size (cache_lookup c k)) requests).
Proof.
  intros Hh. revert clk. induction requests as [|k rest IH]; intros clk;
    cbn [measured map list_sum fold_right]; [reflexivity|].
  rewrite Hh, IH. reflexivity.
Qed.

Lemma list_sum_cons (a : nat) (l : list nat) : list_sum (a :: l) = a + list_sum l.
Proof. reflexivity. Qed.

(** With unique keys, looking every key up gives back every entry. *)
Lemma lookup_sizes_cache_size (c : Cache) :
  cache_wf c ->
  list_sum (map (fun k => lookup_size (cache_lookup c k)) (map fst c)) = cache_size c.
Proof.
  unfold cache_wf, cache_size. induction c as [|[k r] c IH]; intros Hnd; [reflexivity|].
  inversion Hnd as [|x l Hnin Hnd']; subst.
  cbn [map fst cache_lookup snd]. rewrite String.eqb_refl, !list_sum_cons.
  cbn [lookup_size]. f_equal. rewrite <- IH by exact Hnd'.
  f_equal. apply map_ext_in. intros k' Hk'.
  destruct (String.eqb_spec k k') as [-> | _]; [contradiction | reflexivity].
Qed.

Lemma storage_open_existing (cs : CacheStorage) (name : string) (c : Cache) :
  storage_find cs name = Some c -> storage_open cs name = cs.
Proof. intros H. unfold storage_open. rewrite H. reflexivity. Qed.

Lemma healthy_reads_fail_only (e : Env) : healthy e -> reads_fail_only e.
Proof. intros Hh n op error H. rewrite Hh in H. discriminate H. Qed.

Lemma status_loop_run (e : Env) (ps : CacheStorage) (st : CacheStatus) (w : World) :
  (forall p, In p ps -> storage_find (caches w) (fst p) = Some (snd p)) ->
  Forall (fun p => cache_wf (snd p)) ps ->
  exists o w',
    status_loop e (map fst ps) st w = (o, w') /\
    caches w' = caches w /\
    match o with
    | Fulfilled st' =>
        exists ds,
          Forall2 (detail_of e) ps ds /\
          st' = {| cacheNames := cacheNames st;
                   totalSize := totalSize st + list_sum (map (fun d => size (snd d)) ds);
                   cacheDetails :=
                     fold_left (fun o d => obj_set o (fst d) (snd d)) ds (cacheDetails st) |}
    | Rejected error =>
        exists n op, fault e n op = Some error /\ op <> OpCacheMatch
    end /\
    (reads_fail_only e -> exists st', o = Fulfilled st').
Proof.
  revert st w. induction ps as [|p ps IH]; intros st w Hfind Hwf.
  - exists (Fulfilled st), w. split; [reflexivity|]. split; [reflexivity|]. split.
    + exists []. split; [constructor|]. cbn. rewrite Nat.add_0_r.
      destruct st; reflexivity.
    + eauto.
  - cbn [map status_loop].
    assert (Hp : storage_find (caches w) (fst p) = Some (snd p))
      by (apply Hfind; left; reflexivity).
    inversion Hwf as [|x l Hwfp Hwf']; subst.
    unfold bind at 1, caches_open, storage_op.
    destruct (fault e (clock w) OpOpen) as [error|] eqn:E0.
    { eexists _, _. split; [reflexivity|]. split; [reflexivity|]. split.
      - exists (clock w), OpOpen. split; [exact E0 | discriminate].
      - intros Hr. apply Hr in E0. discriminate E0. }
    rewrite (storage_open_existing _ _ _ Hp).
    unfold bind at 1, cache_keys, storage_op. cbn [caches trace clock].
    destruct (fault e (S (clock w)) OpCacheKeys) as [error|] eqn:E1.
    { eexists _, _. split; [reflexivity|]. split; [reflexivity|]. split.
      - exists (S (clock w)), OpCacheKeys. split; [exact E1 | discriminate].
      - intros Hr. apply Hr in E1. discriminate E1. }
    unfold bind at 1. rewrite sum_sizes_run. cbn [caches trace clock].
    unfold partition_of. rewrite Hp. cbn [Nat.add].
    match goal with |- context [status_loop e _ ?st1 ?w1] =>
      destruct (IH st1 w1) as [o [w' [Hrun [Hc [Ho Hreads]]]]];
        [intros q Hq; apply Hfind; right; exact Hq | exact Hwf' |]
    end.
    rewrite Hrun. exists o, w'. split; [reflexivity|]. split; [exact Hc|]. split.
    + destruct o as [st'|error]; [|exact Ho].
      destruct Ho as [ds [Hds ->]].
      set (sz := measured e (snd p) (S (S (clock w))) (map fst (snd p))).
      exists ((fst p, {| itemCount := length (map fst (snd p)); size := sz |}) :: ds).
      split.
      * constructor; [|exact Hds]. unfold detail_of. cbn [fst snd itemCount size].
        split; [reflexivity|]. split; [apply length_map|].
        rewrite <- (lookup_sizes_cache_size (snd p) Hwfp). split.
        -- apply measured_le.
        -- intros Hh. apply measured_healthy, Hh.
      * cbn [cacheNames totalSize cacheDetails map fold_left fst snd size].
        rewrite list_sum_cons, Nat.add_assoc. reflexivity.
    + exact Hreads.
Qed.

Lemma storage_find_In (cs : CacheStorage) (p : string * Cache) :
  NoDup (storage_names cs) -> In p cs -> storage_find cs (fst p) = Some (snd p).
Proof.
  unfold storage_names. induction cs as [|[n c] cs IH]; intros Hnd Hin; [destruct Hin|].
  inversion Hnd as [|x l Hnin Hnd']; subst. cbn [storage_find].
  destruct Hin as [<- | Hin].
  - cbn [fst snd]. rewrite String.eqb_refl. reflexivity.
  - destruct (String.eqb_spec n (fst p)) as [-> | _].
    + exfalso. apply Hnin. apply in_map, Hin.
    + apply IH; assumption.
Qed.

Lemma obj_get_replace {V : Type} (o o' : list (string * V)) (key key' : string)
  (v : V) :
  obj_replace o key v = Some o' ->
  obj_get o' key' = if String.eqb key key' then Some v else obj_get o key'.
Proof.
  revert o'. induction o as [|[k v'] o IH]; intros o' H; [discriminate H|].
  cbn [obj_replace] in H. destruct (String.eqb_spec k key) as [-> | Hk].
  - injection H as <-. cbn [obj_get]. destruct (String.eqb key key'); reflexivity.
  - destruct (obj_replace o key v) as [o1|]; [|discriminate H].
    injection H as <-. cbn [obj_get]. rewrite (IH o1 eq_refl).
    destruct (String.eqb_spec k key') as [-> | _]; [|reflexivity].
    destruct (String.eqb_spec key key'); [congruence | reflexivity].
Qed.

Lemma obj_replace_none {V : Type} (o : list (string * V)) (key : string) (v : V) :
  obj_replace o key v = None -> obj_get o key = None.
Proof.
  induction o as [|[k v'] o IH]; [reflexivity|]. cbn [obj_replace obj_get].
  destruct (String.eqb k key); [discriminate|].
  destruct (obj_replace o key v); [discriminate | exact IH].
Qed.

Lemma obj_get_insert_index {V : Type} (o : list (string * V)) (n : N)
  (key key' : string) (v : V) :
  obj_get o key = None ->
  obj_get (obj_insert_index o n key v) key' =
  if String.eqb key key' then Some v else obj_get o key'.
Proof.
  induction o as [|[k v'] o IH]; intros Hnone; cbn [obj_insert_index obj_get].
  - reflexivity.
  - cbn [obj_get] in Hnone. destruct (String.eqb_spec k key) as [|Hk]; [discriminate|].
    destruct (array_index k) as [m|]; [destruct (N.ltb m n)|]; cbn [obj_get];
      try reflexivity.
    rewrite (IH Hnone). destruct (String.eqb_spec k key') as [-> | _]; [|reflexivity].
    destruct (String.eqb_spec key key'); [congruence | reflexivity].
Qed.

Lemma obj_get_app {V : Type} (o o' : list (string * V)) (key : string) :
  obj_get (o ++ o') key =
  match obj_get o key with
  | Some v => Some v
  | None => obj_get o' key
  end.
Proof.
  induction o as [|[k v] o IH]; [reflexivity|]. cbn [app obj_get].
  destruct (String.eqb k key); [reflexivity | exact IH].
Qed.

(** Reading after an assignment: the assigned key gives the assigned value,
    unless it is [__proto__]; every other key gives what it gave. *)
Lemma obj_get_set {V : Type} (o : list (string * V)) (key key' : string) (v : V) :
  obj_get (obj_set o key v) key' =
  if (String.eqb key key' && negb (String.eqb key "__proto__"))%bool
  then Some v else obj_get o key'.
Proof.
  unfold obj_set. destruct (String.eqb key "__proto__").
  - rewrite andb_false_r. reflexivity.
  - rewrite andb_true_r. destruct (obj_replace o key v) as [o'|] eqn:Er.
    + apply (obj_get_replace o o' key key' v Er).
    + apply obj_replace_none in Er. destruct (array_index key) as [n|].
      * apply obj_get_insert_index, Er.
      * rewrite obj_get_app. cbn [obj_get].
        destruct (String.eqb_spec key key') as [<- | _].
        -- rewrite Er. reflexivity.
        -- destruct (obj_get o key'); reflexivity.
Qed.

Lemma obj_get_fold_other {V : Type} (ds o : list (string * V)) (key : string) :
  ~ In key (map fst ds) ->
  obj_get (fold_left (fun acc d => obj_set acc (fst d) (snd d)) ds o) key =
  obj_get o key.
Proof.
  revert o. induction ds as [|[k v] ds IH]; intros o Hnin; [reflexivity|].
  cbn [fold_left fst snd]. rewrite IH by (intros H; apply Hnin; right; exact H).
  rewrite obj_get_set. destruct (String.eqb_spec k key) as [-> | _]; [|reflexivity].
  exfalso. apply Hnin. left. reflexivity.
Qed.

Lemma obj_get_fold_In {V : Type} (ds o : list (string * V)) (key : string) (v : V) :
  NoDup (map fst ds) -> In (key, v) ds -> key <> "__proto__" ->
  obj_get (fold_left (fun acc d => obj_set acc (fst d) (snd d)) ds o) key = Some v.
Proof.
  revert o. induction ds as [|[k v'] ds IH]; intros o Hnd Hin Hne; [destruct Hin|].
  inversion Hnd as [|x l Hnin Hnd']; subst. cbn [fold_left fst snd].
  destruct Hin as [H | Hin].
  - injection H as -> ->. rewrite obj_get_fold_other by exact Hnin.
    rewrite obj_get_set, String.eqb_refl.
    destruct (String.eqb_spec key "__proto__"); [contradiction | reflexivity].
  - apply IH; assumption.
Qed.

Lemma obj_get_fold_inv {V : Type} (ds o : list (string * V)) (key : string) (v : V) :
  obj_get (fold_left (fun acc d => obj_set acc (fst d) (snd d)) ds o) key = Some v ->
  (In key (map fst ds) /\ key <> "__proto__") \/ obj_get o key = Some v.
Proof.
  revert o. induction ds as [|[k v'] ds IH]; intros o H; [right; exact H|].
  cbn [fold_left fst snd] in H. apply IH in H as [[Hin Hne] | H].
  - left. split; [right; exact Hin | exact Hne].
  - rewrite obj_get_set in H.
    destruct (String.eqb_spec k key) as [-> | _]; cbn [andb] in H; [|right; exact H].
    destruct (String.eqb_spec key "__proto__") as [|Hne]; cbn [negb] in H;
      [right; exact H|].
    left. split; [left; reflexivity | exact Hne].
Qed.

Lemma detail_of_names (e : Env) (ps : CacheStorage) (ds : list (string * CacheDetail)) :
  Forall2 (detail_of e) ps ds -> map fst ds = storage_names ps.
Proof.
  unfold storage_names. induction 1 as [|p d ps ds [Hn _] _ IH]; [reflexivity|].
  cbn [map]. rewrite Hn, IH. reflexivity.
Qed.

(** The reply that the loop of [getCacheStatus] builds is about the
    storage. *)
Lemma details_report (e : Env) (cs : CacheStorage) (ds : list (string * CacheDetail)) :
  NoDup (storage_names cs) ->
  Forall2 (detail_of e) cs ds ->
  reports e cs
    {| cacheNames := storage_names cs;
       totalSize := list_sum (map (fun d => size (snd d)) ds);
       cacheDetails := fold_left (fun o d => obj_set o (fst d) (snd d)) ds [] |}.
Proof.
  intros Hnd Hds. pose proof (detail_of_names e cs ds Hds) as Hnames.
  assert (Hndd : NoDup (map fst ds)) by (rewrite Hnames; exact Hnd).
  unfold reports. cbn [cacheNames totalSize cacheDetails].
  split; [reflexivity|]. split.
  - intros key d H. apply obj_get_fold_inv in H as [[Hin Hne] | H]; [|discriminate H].
    rewrite <- Hnames. split; assumption.
  - exists (map (fun d => size (snd d)) ds). split; [reflexivity|].
    assert (Hsub : forall d, In d ds ->
              fst d <> "__proto__" ->
              obj_get (fold_left (fun o d => obj_set o (fst d) (snd d)) ds []) (fst d) =
              Some (snd d)).
    { intros [k v] Hin Hne. apply obj_get_fold_In; assumption. }
    clear Hnames Hndd Hnd. revert Hsub.
    generalize (fold_left (fun o d => obj_set o (fst d) (snd d)) ds []). intros o.
    induction Hds as [|p d ps ds' [Hn [Hc [Hle Heq]]] _ IH]; intros Hsub; cbn [map].
    + constructor.
    + constructor.
      * split; [exact Hle|]. split; [exact Heq|]. intros Hne.
        rewrite <- Hn in Hne |- *. rewrite (Hsub d (or_introl eq_refl) Hne).
        f_equal. destruct d as [k [ic sz]]. cbn [fst snd itemCount size] in *.
        rewrite Hc. reflexivity.
      * apply IH. intros d' Hd'. apply Hsub. right. exact Hd'.
Qed.

Lemma reports_healthy (e : Env) (cs : CacheStorage) (s : CacheStatus) :
  healthy e -> reports e cs s -> exact_status cs s.
Proof.
  intros Hh [Hn [_ [sizes [Ht Hall]]]]. split; [exact Hn|].
  assert (Hgen : list_sum sizes = list_sum (map (fun p => cache_size (snd p)) cs) /\
                 forall p, In p cs -> fst p <> "__proto__" ->
                   obj_get (cacheDetails s) (fst p) = Some (partition_detail (snd p))).
  { clear Hn Ht. induction Hall as [|p sz ps szs [_ [Heq Hd]] _ [IH1 IH2]].
    - split; [reflexivity | intros p []].
    - cbn [map]. rewrite !list_sum_cons, IH1, (Heq Hh). split; [reflexivity|].
      intros q [<- | Hq] Hne.
      + rewrite (Hd Hne), (Heq Hh). reflexivity.
      + apply IH2; assumption. }
  destruct Hgen as [Hs Hd]. split; [rewrite Ht; exact Hs | exact Hd].
Qed.

(** The whole run of [getCacheStatus], whatever fails. *)
Lemma getCacheStatus_run (e : Env) (w : World) :
  storage_wf (caches w) ->
  exists reply w',
    getCacheStatus e w = (Fulfilled reply, w') /\
    caches w' = caches w /\
    match reply with
    | StatusOk s => reports e (caches w) s
    | StatusError message =>
        exists n op, fault e n op = Some message /\ op <> OpCacheMatch
    end /\
    (reads_fail_only e -> exists s, reply = StatusOk s) /\
    (forall message, fault e (clock w) OpKeys = Some message ->
                     reply = StatusError message).
Proof.
  intros [Hnd Hwf]. unfold getCacheStatus, try_catch, bind at 1, caches_keys, storage_op.
  destruct (fault e (clock w) OpKeys) as [error|] eqn:E0.
  - unfold bind, console_error, emit, ret. cbn [caches trace clock].
    eexists _, _. split; [reflexivity|]. split; [reflexivity|]. split; [|split].
    + exists (clock w), OpKeys. split; [exact E0 | discriminate].
    + intros Hr. apply Hr in E0. discriminate E0.
    + intros message Hm. congruence.
  - unfold bind at 1.
    match goal with |- context [status_loop e _ ?st0 ?w0] =>
      destruct (status_loop_run e (caches w) st0 w0) as [o [w' [Hrun [Hc [Ho Hreads]]]]];
        [intros p Hp; apply storage_find_In; assumption | exact Hwf |]
    end.
    unfold storage_names in Hrun |- *. rewrite Hrun. cbn [caches] in Hc.
    destruct o as [st'|error].
    + destruct Ho as [ds [Hds ->]]. cbn [cacheNames totalSize cacheDetails] in *.
      unfold ret.
      eexists _, _. split; [reflexivity|]. split; [exact Hc|]. split; [|split].
      * apply (details_report e (caches w) ds Hnd Hds).
      * intros _. eauto.
      * intros message Hm. discriminate Hm.
    + unfold bind, console_error, emit, ret.
      eexists _, _. split; [reflexivity|]. split; [exact Hc|]. split; [exact Ho|].
      split.
      * intros Hr. destruct (Hreads Hr) as [st' Hst]. discriminate Hst.
      * intros message Hm. discriminate Hm.
Qed.

Lemma read_fault_env_reads_fail_only : reads_fail_only read_fault_env.
Proof. intros n [] error H; (discriminate H || reflexivity). Qed.

(** C9, as stated, fails: when the read of an entry fails, the error is
    caught inside the loop and logged as a warning; the reply is a status,
    not an error, and the size it reports for the partition (0) is not the
    sum of the body sizes of its entries (10). *)
Lemma getCacheStatus_read_error_is_skipped :
  fault read_fault_env 3 OpCacheMatch = Some "QuotaExceededError" /\
  cache_size [(url icon_request, icon_response)] = 10 /\
  trace (snd (message_listener read_fault_env status_message icon_world)) =
    [ EvConsole LWarn "Failed to get size for:" [url icon_request];
      EvPostMessage
        (StatusOk
           {| cacheNames := [RUNTIME_CACHE_NAME];
              totalSize := 0;
              cacheDetails := [(RUNTIME_CACHE_NAME, {| itemCount := 1; size := 0 |})] |}) ].
Proof. split; [reflexivity|]. split; reflexivity. Qed.

(** C9, amended: GET_CACHE_STATUS never throws and, once the status has
    settled, posts one reply over the reply channel, leaving the storage as
    it was.  When no cache-storage operation fails the reply is a status
    with the partition names, the sum of all partition sizes as total
    size and, for every partition whose name is not __proto__, its number
    of entries and the sum of the body sizes of its entries.  An error
    while reading a single entry does not make the reply an error: when
    only such reads fail a status is replied.  Every status reply lists
    the partition names and has an entry for every partition whose name is
    not __proto__, and for nothing else, with its number of entries and a
    size that is at most the sum of the body sizes of the partition; its
    total size is the sum of these sizes over all partitions.  An error
    reply carries the message of a failed operation other than the read of
    an entry, and a failure to list the partitions gives an error
    reply. *)
Theorem getCacheStatus_replies (e : Env) (w : World) :
  storage_wf (caches w) ->
  exists reply w',
    getCacheStatus e w = (Fulfilled reply, w') /\
    message_listener e status_message w =
      (Fulfilled tt,
       {| caches := caches w'; trace := trace w' ++ [EvPostMessage reply];
          clock := clock w' |}) /\
    caches w' = caches w /\
    (healthy e -> exists s, reply = StatusOk s /\ exact_status (caches w) s) /\
    (reads_fail_only e -> exists s, reply = StatusOk s) /\
    (forall s, reply = StatusOk s -> reports e (caches w) s) /\
    (forall message, reply = StatusError message ->
       exists n op, fault e n op = Some message /\ op <> OpCacheMatch) /\
    (forall message, fault e (clock w) OpKeys = Some message ->
       reply = StatusError message).
Proof.
  intros Hwf.
  destruct (getCacheStatus_run e w Hwf) as [reply [w' [Hrun [Hc [Hr [Hro Hk]]]]]].
  exists reply, w'. split; [exact Hrun|].
  split; [|split; [exact Hc|split; [|split; [exact Hro|]]]].
  - change (message_listener e status_message)
      with (detached (st <- getCacheStatus e ;; postMessage st)).
    unfold detached, bind. rewrite Hrun. reflexivity.
  - intros Hh. destruct (Hro (healthy_reads_fail_only e Hh)) as [s ->].
    exists s. split; [reflexivity|]. apply (reports_healthy e _ _ Hh Hr).
  - split; [|split; [|exact Hk]].
    + intros s ->. exact Hr.
    + intros message ->. exact Hr.
Qed.

Lemma getCacheStatus_replies_witness :
  storage_wf (caches two_partition_world) /\
  exists s,
    fst (getCacheStatus offline_env two_partition_world) = Fulfilled (StatusOk s) /\
    cacheNames s = [STATIC_CACHE_NAME; RUNTIME_CACHE_NAME] /\
    totalSize s = 350 /\
    obj_get (cacheDetails s) STATIC_CACHE_NAME = Some {| itemCount := 1; size := 100 |} /\
    obj_get (cacheDetails s) RUNTIME_CACHE_NAME = Some {| itemCount := 1; size := 250 |}.
Proof.
  assert (Hwf : storage_wf (caches two_partition_world)).
  { split.
    - repeat constructor; simpl; intuition discriminate.
    - repeat constructor; simpl; intuition. }
  split; [exact Hwf|].
  destruct (getCacheStatus_replies offline_env two_partition_world Hwf)
    as [reply [w' [Hrun [_ [_ [Hh _]]]]]].
  destruct (Hh offline_env_healthy) as [s [-> [Hn [Ht Hd]]]].
  exists s. rewrite Hrun. split; [reflexivity|]. split; [exact Hn|].
  split; [exact Ht|]. split.
  - apply (Hd (STATIC_CACHE_NAME, [("https://app.example/index.html", sized_response 100)])).
    + left. reflexivity.
    + discriminate.
  - apply (Hd (RUNTIME_CACHE_NAME, [("https://app.example/api/items", sized_response 250)])).
    + right. left. reflexivity.
    + discriminate.
Defined.

(** * Further properties of the worker *)

(** ** Network-first, online and offline *)

(** X1: when the network answers, the network-first strategy returns that
    answer after exactly one fetch; an ok answer is in the runtime
    partition afterwards, an answer that is not ok leaves the storage
    untouched. *)
Theorem networkFirstStrategy_online (e : Env) (request : Request) (w : World)
  (r : Response) :
  healthy e ->
  network e (url request) = Some r ->
  fst (networkFirstStrategy e request w) = Fulfilled (VResponse r) /\
  trace (snd (networkFirstStrategy e request w)) = trace w ++ [EvFetch (url request)] /\
  (ok r = true ->
   runtime_lookup (caches (snd (networkFirstStrategy e request w))) (url request) =
     Some r) /\
  (ok r = false -> caches (snd (networkFirstStrategy e request w)) = caches w).
Proof.
  intros Hh Hnet.
  unfold networkFirstStrategy, try_catch, bind, fetch, detached, caches_open, cache_put, ret.
  rewrite Hnet. destruct (ok r).
  - rewrite !storage_op_healthy by apply Hh. cbn.
    split; [reflexivity|]. split; [reflexivity|]. split; [|discriminate].
    intros _. unfold runtime_lookup. rewrite partition_of_put.
    apply cache_lookup_insert_same.
  - cbn. split; [reflexivity|]. split; [reflexivity|]. split; [discriminate|reflexivity].
Qed.

Lemma networkFirstStrategy_online_witness :
  healthy icon_env /\
  fst (networkFirstStrategy icon_env icon_request empty_world) =
    Fulfilled (VResponse icon_response) /\
  runtime_lookup (caches (snd (networkFirstStrategy icon_env icon_request empty_world)))
    (url icon_request) = Some icon_response.
Proof.
  destruct (networkFirstStrategy_online icon_env icon_request empty_world icon_response
              icon_env_healthy eq_refl) as [Hr [_ [Hs _]]].
  split; [exact icon_env_healthy|]. split; [exact Hr | exact (Hs eq_refl)].
Defined.

(** X2: when the fetch fails, the network-first strategy writes nothing and
    answers from the storage: the cached response when some partition holds
    the request; otherwise, for a request that is not a navigation, a 503
    response, and for a navigation whatever the lookup of /offline.html
    finds. *)
Theorem networkFirstStrategy_offline (e : Env) (request : Request) (w : World) :
  healthy e ->
  network e (url request) = None ->
  caches (snd (networkFirstStrategy e request w)) = caches w /\
  (forall r, storage_match (caches w) (url request) = Some r ->
     fst (networkFirstStrategy e request w) = Fulfilled (VResponse r)) /\
  (storage_match (caches w) (url request) = None ->
   mode request <> "navigate" ->
   fst (networkFirstStrategy e request w) = Fulfilled (VResponse unavailable_response) /\
   status unavailable_response = 503%Z) /\
  (storage_match (caches w) (url request) = None ->
   mode request = "navigate" ->
   fst (networkFirstStrategy e request w) =
     Fulfilled (of_lookup (storage_match (caches w) (resolve e "/offline.html")))).
Proof.
  intros Hh Hnet.
  unfold networkFirstStrategy, try_catch, bind, fetch, console_log, emit, promise.
  rewrite Hnet. rewrite caches_match_healthy by apply Hh. cbn [caches trace clock].
  destruct (storage_match (caches w) (url request)) as [r'|]; cbn [of_lookup truthy].
  - split; [reflexivity|]. split; [|split]; [|discriminate|discriminate].
    intros r H. injection H as ->. reflexivity.
  - destruct (String.eqb_spec (mode request) "navigate") as [Hm | Hm].
    + rewrite caches_match_healthy by apply Hh. cbn.
      split; [reflexivity|]. split; [discriminate|]. split; [contradiction|].
      reflexivity.
    + cbn. split; [reflexivity|]. split; [discriminate|]. split; [auto|].
      intros _ H. contradiction.
Qed.

Lemma networkFirstStrategy_offline_witness :
  healthy offline_env /\
  fst (networkFirstStrategy offline_env api_request empty_world) =
    Fulfilled (VResponse unavailable_response) /\
  fst (networkFirstStrategy offline_env icon_request icon_world) =
    Fulfilled (VResponse icon_response).
Proof.
  split; [exact offline_env_healthy|]. split.
  - destruct (networkFirstStrategy_offline offline_env api_request empty_world
                offline_env_healthy eq_refl) as [_ [_ [H _]]].
    apply H; [reflexivity | discriminate].
  - destruct (networkFirstStrategy_offline offline_env icon_request icon_world
                offline_env_healthy eq_refl) as [_ [H _]].
    apply H. reflexivity.
Defined.

(** ** Stale-while-revalidate *)

(** X3: the stale-while-revalidate strategy always starts exactly one
    fetch; it answers with the cached response when some partition holds
    the request, whatever the network does, and with the network response
    otherwise. *)
Theorem staleWhileRevalidateStrategy_prefers_cache (e : Env) (request : Request)
  (w : World) :
  healthy e ->
  trace (snd (staleWhileRevalidateStrategy e request w)) =
    trace w ++ [EvFetch (url request)] /\
  (forall r, storage_match (caches w) (url request) = Some r ->
     fst (staleWhileRevalidateStrategy e request w) = Fulfilled (VResponse r)) /\
  (forall r, storage_match (caches w) (url request) = None ->
     network e (url request) = Some r ->
     fst (staleWhileRevalidateStrategy e request w) = Fulfilled (VResponse r)).
Proof.
  intros Hh. split.
  - unfold staleWhileRevalidateStrategy, bind, promise, try_catch, bind, fetch.
    rewrite caches_match_healthy by apply Hh. cbn [caches trace clock].
    destruct (network e (url request)) as [r|].
    + destruct (ok r).
      * unfold detached, bind, caches_open, cache_put.
        rewrite !storage_op_healthy by apply Hh. cbn.
        destruct (storage_match (caches w) (url request)); reflexivity.
      * cbn. destruct (storage_match (caches w) (url request)); reflexivity.
    + cbn. destruct (storage_match (caches w) (url request)); reflexivity.
  - rewrite staleWhileRevalidateStrategy_result by exact Hh. split.
    + intros r ->. reflexivity.
    + intros r -> ->. reflexivity.
Qed.

Lemma staleWhileRevalidateStrategy_prefers_cache_witness :
  healthy icon_env /\
  fst (staleWhileRevalidateStrategy icon_env icon_request stale_icon_world) =
    Fulfilled (VResponse stale_response) /\
  fst (staleWhileRevalidateStrategy icon_env icon_request empty_world) =
    Fulfilled (VResponse icon_response).
Proof.
  destruct (staleWhileRevalidateStrategy_prefers_cache icon_env icon_request
              stale_icon_world icon_env_healthy) as [_ [Hhit _]].
  destruct (staleWhileRevalidateStrategy_prefers_cache icon_env icon_request
              empty_world icon_env_healthy) as [_ [_ Hmiss]].
  split; [exact icon_env_healthy|]. split.
  - apply Hhit. reflexivity.
  - apply Hmiss; reflexivity.
Defined.

(** ** Failures of the cache storage inside the strategies *)

(** X4: in the cache-first strategy the opening of the runtime partition
    is inside the [try]: when it fails after a miss and a successful ok
    fetch, the network response is dropped and the 404 response is
    returned.  The write itself is not awaited: when only the write fails,
    the network response is returned and nothing is stored. *)
Theorem cacheFirstStrategy_storage_failure (e : Env) (request : Request) (w : World)
  (r : Response) :
  fault e (clock w) OpMatch = None ->
  storage_match (caches w) (url request) = None ->
  network e (url request) = Some r ->
  ok r = true ->
  (forall error, fault e (S (clock w)) OpOpen = Some error ->
     fst (cacheFirstStrategy e request w) = Fulfilled (VResponse not_found_response) /\
     caches (snd (cacheFirstStrategy e request w)) = caches w /\
     trace (snd (cacheFirstStrategy e request w)) =
       trace w ++ [EvFetch (url request);
                   EvConsole LError "Failed to fetch resource:" [url request; error]]) /\
  (forall error, fault e (S (clock w)) OpOpen = None ->
     fault e (S (S (clock w))) OpPut = Some error ->
     fst (cacheFirstStrategy e request w) = Fulfilled (VResponse r) /\
     caches (snd (cacheFirstStrategy e request w)) =
       storage_open (caches w) RUNTIME_CACHE_NAME).
Proof.
  intros Hm Hmiss Hnet Hok.
  unfold cacheFirstStrategy, bind. rewrite caches_match_healthy by exact Hm.
  rewrite Hmiss. cbn [of_lookup truthy].
  unfold try_catch, bind, fetch, detached, caches_open, cache_put, console_error, emit, ret.
  rewrite Hnet, Hok. cbn [caches trace clock]. split.
  - intros error Ho. rewrite (storage_op_faulty e _ _ _ error) by exact Ho.
    cbn [caches trace clock]. rewrite <- app_assoc. auto.
  - intros error Ho Hp. rewrite storage_op_healthy by exact Ho.
    cbn [fst snd caches trace clock].
    rewrite (storage_op_faulty e _ _ _ error) by exact Hp. auto.
Qed.

Lemma cacheFirstStrategy_storage_failure_witness :
  fst (cacheFirstStrategy open_fault_env icon_request empty_world) =
    Fulfilled (VResponse not_found_response) /\
  fst (cacheFirstStrategy put_fault_env icon_request empty_world) =
    Fulfilled (VResponse icon_response) /\
  caches (snd (cacheFirstStrategy put_fault_env icon_request empty_world)) =
    [(RUNTIME_CACHE_NAME, [])].
Proof.
  destruct (cacheFirstStrategy_storage_failure open_fault_env icon_request empty_world
              icon_response eq_refl eq_refl eq_refl eq_refl) as [Hopen _].
  destruct (cacheFirstStrategy_storage_failure put_fault_env icon_request empty_world
              icon_response eq_refl eq_refl eq_refl eq_refl) as [_ Hput].
  split; [exact (proj1 (Hopen "QuotaExceededError" eq_refl))|].
  exact (Hput "QuotaExceededError" eq_refl eq_refl).
Defined.

(** X5: in the network-first strategy too the opening of the runtime
    partition is inside the [try]: when it fails after a successful ok
    fetch, the strategy falls back to the storage as if the network had
    failed, and answers with the cached response, or with the 503 response
    for a request that is not a navigation, instead of the network
    response. *)
Theorem networkFirstStrategy_open_failure (e : Env) (request : Request) (w : World)
  (r : Response) (error : string) :
  network e (url request) = Some r ->
  ok r = true ->
  fault e (clock w) OpOpen = Some error ->
  fault e (S (clock w)) OpMatch = None ->
  caches (snd (networkFirstStrategy e request w)) = caches w /\
  (forall r', storage_match (caches w) (url request) = Some r' ->
     fst (networkFirstStrategy e request w) = Fulfilled (VResponse r')) /\
  (storage_match (caches w) (url request) = None ->
   mode request <> "navigate" ->
   fst (networkFirstStrategy e request w) = Fulfilled (VResponse unavailable_response)).
Proof.
  intros Hnet Hok Ho Hm.
  unfold networkFirstStrategy, try_catch, bind, fetch, caches_open, console_log, emit,
    promise.
  rewrite Hnet, Hok. rewrite (storage_op_faulty e _ _ _ error) by exact Ho.
  cbn [caches trace clock]. rewrite caches_match_healthy by exact Hm.
  cbn [caches trace clock].
  destruct (storage_match (caches w) (url request)) as [r'|]; cbn [of_lookup truthy].
  - split; [reflexivity|]. split; [|discriminate].
    intros r'' H. injection H as ->. reflexivity.
  - destruct (String.eqb_spec (mode request) "navigate") as [Hn | Hn].
    + unfold caches_match, storage_op. cbn [caches trace clock].
      destruct (fault e (S (S (clock w))) OpMatch);
        (split; [reflexivity|]; split; [discriminate|]; intros _ H; contradiction).
    + cbn. split; [reflexivity|]. split; [discriminate|]. reflexivity.
Qed.

Lemma networkFirstStrategy_open_failure_witness :
  network open_fault_env (url icon_request) = Some icon_response /\
  fst (networkFirstStrategy open_fault_env icon_request stale_icon_world) =
    Fulfilled (VResponse stale_response) /\
  fst (networkFirstStrategy open_fault_env icon_request empty_world) =
    Fulfilled (VResponse unavailable_response).
Proof.
  split; [reflexivity|].
  destruct (networkFirstStrategy_open_failure open_fault_env icon_request
              stale_icon_world icon_response "QuotaExceededError"
              eq_refl eq_refl eq_refl eq_refl) as [_ [Hhit _]].
  destruct (networkFirstStrategy_open_failure open_fault_env icon_request
              empty_world icon_response "QuotaExceededError"
              eq_refl eq_refl eq_refl eq_refl) as [_ [_ Hmiss]].
  split; [apply Hhit; reflexivity | apply Hmiss; [reflexivity | discriminate]].
Defined.

(** X6: no strategy catches a failure of the lookup across the partitions.
    The cache-first, cache-only and stale-while-revalidate strategies
    reject with the error of their first lookup, before any fetch; the
    network-first strategy rejects when the fetch fails and the lookup of
    its fallback fails too. *)
Theorem strategies_propagate_lookup_failure (e : Env) (request : Request) (w : World)
  (error : string) :
  fault e (clock w) OpMatch = Some error ->
  (fst (cacheFirstStrategy e request w) = Rejected error /\
   trace (snd (cacheFirstStrategy e request w)) = trace w) /\
  (fst (cacheOnlyStrategy e request w) = Rejected error /\
   trace (snd (cacheOnlyStrategy e request w)) = trace w) /\
  (fst (staleWhileRevalidateStrategy e request w) = Rejected error /\
   trace (snd (staleWhileRevalidateStrategy e request w)) = trace w) /\
  (network e (url request) = None ->
   fst (networkFirstStrategy e request w) = Rejected error).
Proof.
  intros Hf.
  unfold cacheFirstStrategy, cacheOnlyStrategy, staleWhileRevalidateStrategy,
    networkFirstStrategy, try_catch, bind, caches_match, fetch, console_log, emit.
  rewrite !(storage_op_faulty e _ _ _ error) by exact Hf.
  split; [split; reflexivity|]. split; [split; reflexivity|].
  split; [split; reflexivity|].
  intros ->. cbn [caches trace clock].
  rewrite (storage_op_faulty e _ _ _ error) by exact Hf. reflexivity.
Qed.

Lemma strategies_propagate_lookup_failure_witness :
  fst (cacheFirstStrategy match_fault_env icon_request icon_world) =
    Rejected "InvalidStateError" /\
  fst (networkFirstStrategy match_fault_env icon_request icon_world) =
    Rejected "InvalidStateError".
Proof.
  destruct (strategies_propagate_lookup_failure match_fault_env icon_request icon_world
              "InvalidStateError" eq_refl) as [[Hc _] [_ [_ Hn]]].
  split; [exact Hc | exact (Hn eq_refl)].
Defined.

(** ** What the worker writes *)

Lemma storage_find_update_other (cs : CacheStorage) (name n : string)
  (f : Cache -> Cache) :
  name <> n -> storage_find (storage_update cs n f) name = storage_find cs name.
Proof.
  intros Hne. induction cs as [|[k c] cs IH]; [reflexivity|].
  cbn [storage_update storage_find].
  destruct (String.eqb_spec k n) as [-> | Hk]; cbn [storage_find].
  - destruct (String.eqb_spec n name); [congruence | reflexivity].
  - destruct (String.eqb k name); [reflexivity | exact IH].
Qed.

Section Frames.

Variable e : Env.
Variable name : string.

Lemma frames_weaken {A : Type} (m : M A) (Q Q' : A -> Prop) :
  frames name m Q -> (forall a, Q a -> Q' a) -> frames name m Q'.
Proof. intros Hm HQ w. destruct (Hm w) as [Hf Hv]. split; [exact Hf | auto]. Qed.

Lemma frames_ret {A : Type} (a : A) (Q : A -> Prop) : Q a -> frames name (ret a) Q.
Proof. intros HQ w. split; [reflexivity|]. intros a' H. injection H as <-. exact HQ. Qed.

Lemma frames_reject {A : Type} (error : string) (Q : A -> Prop) :
  frames name (@reject A error) Q.
Proof. intros w. split; [reflexivity | discriminate]. Qed.

Lemma frames_emit (ev : Event) : frames name (emit ev) any_value.
Proof. intros w. split; [reflexivity | intros; exact I]. Qed.

Lemma frames_fetch (u : string) : frames name (fetch e u) any_value.
Proof.
  intros w. unfold fetch.
  destruct (network e u); (split; [reflexivity | intros; exact I]).
Qed.

Lemma frames_bind {A B : Type} (m : M A) (k : A -> M B) (Q : A -> Prop)
  (R : B -> Prop) :
  frames name m Q -> (forall a, Q a -> frames name (k a) R) ->
  frames name (bind m k) R.
Proof.
  intros Hm Hk w. unfold bind. destruct (Hm w) as [Hf Hv].
  destruct (m w) as [[a|error] w1]; cbn [fst snd] in *.
  - destruct (Hk a (Hv a eq_refl) w1) as [Hf' Hv'].
    split; [rewrite Hf'; exact Hf | exact Hv'].
  - split; [exact Hf | discriminate].
Qed.

Lemma frames_try_catch {A : Type} (m : M A) (handler : string -> M A)
  (Q : A -> Prop) :
  frames name m Q -> (forall error, frames name (handler error) Q) ->
  frames name (try_catch m handler) Q.
Proof.
  intros Hm Hk w. unfold try_catch. destruct (Hm w) as [Hf Hv].
  destruct (m w) as [[a|error] w1]; cbn [fst snd] in *.
  - split; [exact Hf | exact Hv].
  - destruct (Hk error w1) as [Hf' Hv']. split; [rewrite Hf'; exact Hf | exact Hv'].
Qed.

Lemma frames_promise {A : Type} (m : M A) (Q : A -> Prop) :
  frames name m Q -> frames name (promise m) any_value.
Proof.
  intros Hm w. unfold promise. destruct (Hm w) as [Hf _].
  destruct (m w) as [o w1]. split; [exact Hf | intros; exact I].
Qed.

Lemma frames_detached {A : Type} (m : M A) (Q : A -> Prop) :
  frames name m Q -> frames name (detached m) any_value.
Proof.
  intros Hm w. unfold detached. destruct (Hm w) as [Hf _].
  destruct (m w) as [o w1]. split; [exact Hf | intros; exact I].
Qed.

Lemma frames_async_return (o : Operand) : frames name (async_return o) any_value.
Proof.
  destruct o as [v|[v|error]]; intros w; (split; [reflexivity | intros; exact I]).
Qed.

Lemma frames_promise_all {A : Type} (ps : list (M A)) :
  Forall (fun p => frames name p any_value) ps ->
  frames name (promise_all ps) any_value.
Proof.
  induction 1 as [|p ps Hp _ IH]; intros w.
  - split; [reflexivity | intros; exact I].
  - cbn [promise_all]. destruct (Hp w) as [Hf _]. destruct (p w) as [o w1].
    destruct (IH w1) as [Hf' _]. destruct (promise_all ps w1) as [os w2].
    cbn [fst snd] in *. split; [rewrite Hf'; exact Hf | intros; exact I].
Qed.

Lemma frames_storage_op {A : Type} (op : StorageOp)
  (f : CacheStorage -> A * CacheStorage) (Q : A -> Prop) :
  (forall cs, storage_find (snd (f cs)) name = storage_find cs name /\ Q (fst (f cs))) ->
  frames name (storage_op e op f) Q.
Proof.
  intros Hf w. unfold storage_op. destruct (fault e (clock w) op).
  - split; [reflexivity | discriminate].
  - destruct (Hf (caches w)) as [Hs HQ]. destruct (f (caches w)) as [a cs].
    split; [exact Hs|]. intros a' H. injection H as <-. exact HQ.
Qed.

Lemma frames_caches_match (u : string) : frames name (caches_match e u) any_value.
Proof. apply frames_storage_op. intros cs. split; [reflexivity | exact I]. Qed.

(** [caches.open] of another partition leaves [name] alone, and its handle
    is the partition it was asked for. *)
Lemma frames_caches_open (n : string) :
  name <> n -> frames name (caches_open e n) (fun cache => cache = n).
Proof.
  intros Hne. apply frames_storage_op. intros cs.
  split; [apply storage_find_open_other, Hne | reflexivity].
Qed.

Lemma frames_cache_put (cache : CacheHandle) (u : string) (r : Response) :
  name <> cache -> frames name (cache_put e cache u r) any_value.
Proof.
  intros Hne. apply frames_storage_op. intros cs.
  split; [apply storage_find_update_other, Hne | exact I].
Qed.

End Frames.

Lemma frames_store_response (e : Env) (name u : string) (r : Response) :
  name <> RUNTIME_CACHE_NAME ->
  frames name
    (cache <- caches_open e RUNTIME_CACHE_NAME ;; detached (cache_put e cache u r))
    any_value.
Proof.
  intros Hne. eapply frames_bind; [apply frames_caches_open, Hne|].
  intros cache ->. eapply frames_detached. apply frames_cache_put, Hne.
Qed.

Lemma frames_networkFirstStrategy (e : Env) (name : string) (request : Request) :
  name <> RUNTIME_CACHE_NAME ->
  frames name (networkFirstStrategy e request) any_value.
Proof.
  intros Hne. unfold networkFirstStrategy. apply frames_try_catch.
  - eapply frames_bind; [apply frames_fetch|]. intros networkResponse _.
    eapply frames_bind with (Q := any_value).
    + destruct (ok networkResponse);
        [apply frames_store_response, Hne | apply frames_ret; exact I].
    + intros _ _. apply frames_ret. exact I.
  - intros error. eapply frames_bind; [apply frames_emit|]. intros _ _.
    eapply frames_bind; [apply frames_caches_match|]. intros cachedResponse _.
    destruct (truthy cachedResponse); [apply frames_ret; exact I|].
    destruct (String.eqb (mode request) "navigate"); [|apply frames_ret; exact I].
    eapply frames_bind; [eapply frames_promise; apply frames_caches_match|].
    intros offlinePage _. apply frames_async_return.
Qed.

Lemma frames_cacheFirstStrategy (e : Env) (name : string) (request : Request) :
  name <> RUNTIME_CACHE_NAME ->
  frames name (cacheFirstStrategy e request) any_value.
Proof.
  intros Hne. unfold cacheFirstStrategy.
  eapply frames_bind; [apply frames_caches_match|]. intros cachedResponse _.
  destruct (truthy cachedResponse); [apply frames_ret; exact I|].
  apply frames_try_catch.
  - eapply frames_bind; [apply frames_fetch|]. intros networkResponse _.
    eapply frames_bind with (Q := any_value).
    + destruct (ok networkResponse);
        [apply frames_store_response, Hne | apply frames_ret; exact I].
    + intros _ _. apply frames_ret. exact I.
  - intros error. eapply frames_bind; [apply frames_emit|]. intros _ _.
    apply frames_ret. exact I.
Qed.

Lemma frames_staleWhileRevalidateStrategy (e : Env) (name : string)
  (request : Request) :
  name <> RUNTIME_CACHE_NAME ->
  frames name (staleWhileRevalidateStrategy e request) any_value.
Proof.
  intros Hne. unfold staleWhileRevalidateStrategy.
  eapply frames_bind; [apply frames_caches_match|]. intros cachedResponse _.
  eapply frames_bind with (Q := any_value).
  - eapply frames_promise. apply frames_try_catch with (Q := any_value).
    + eapply frames_bind; [apply frames_fetch|]. intros networkResponse _.
      eapply frames_bind with (Q := any_value).
      * destruct (ok networkResponse); [|apply frames_ret; exact I].
        eapply frames_detached.
        eapply frames_bind; [apply frames_caches_open, Hne|].
        intros c ->. apply frames_cache_put, Hne.
      * intros _ _. apply frames_ret. exact I.
    + intros error. apply frames_ret. exact I.
  - intros networkResponsePromise _. apply frames_async_return.
Qed.

Lemma frames_cacheUrls (e : Env) (name : string) (urls : list string) :
  name <> RUNTIME_CACHE_NAME ->
  frames name (cacheUrls e urls) any_value.
Proof.
  intros Hne. unfold cacheUrls. apply frames_try_catch; [|intros error; apply frames_emit].
  eapply frames_bind; [apply frames_caches_open, Hne|]. intros cache ->.
  eapply frames_bind with (Q := any_value); [|intros _ _; apply frames_emit].
  apply frames_promise_all. apply Forall_forall. intros p Hp.
  apply in_map_iff in Hp as [u [<- _]].
  apply frames_try_catch; [|intros error; apply frames_emit].
  eapply frames_bind; [apply frames_fetch|]. intros response _.
  destruct (ok response); [|apply frames_ret; exact I].
  eapply frames_bind; [apply frames_cache_put, Hne|]. intros _ _. apply frames_emit.
Qed.

Lemma frames_install_listener (e : Env) (name : string) :
  name <> STATIC_CACHE_NAME ->
  frames name (install_listener e) any_value.
Proof.
  intros Hne. unfold install_listener.
  eapply frames_bind; [apply frames_emit|]. intros _ _.
  apply frames_try_catch; [|intros error; apply frames_emit].
  eapply frames_bind; [apply frames_caches_open, Hne|]. intros cache ->.
  eapply frames_bind; [apply frames_emit|]. intros _ _.
  eapply frames_bind with (Q := any_value); [|intros _ _; apply frames_emit].
  unfold cache_addAll, fetch_batch.
  eapply frames_bind with (Q := any_value).
  - apply frames_promise_all. apply Forall_forall. intros p Hp.
    apply in_map_iff in Hp as [u [<- _]].
    eapply frames_weaken with (Q := any_value); [|intros; exact I].
    eapply frames_bind; [apply frames_fetch|]. intros r _.
    destruct (ok r); [apply frames_ret; exact I | apply frames_reject].
  - intros batch _. apply frames_storage_op. intros cs.
    split; [apply storage_find_update_other, Hne | exact I].
Qed.

(** X7: whatever the network and the storage do, answering a request and
    prefetching URLs write to no partition but the runtime partition, and
    the install step writes to no partition but the static partition:
    every other partition is exactly what it was. *)
Theorem worker_writes_one_partition (e : Env) (name : string) (w : World) :
  (name <> RUNTIME_CACHE_NAME ->
   (forall request,
      storage_find (caches (snd (handle_fetch e request w))) name =
      storage_find (caches w) name) /\
   (forall urls,
      storage_find (caches (snd (cacheUrls e urls w))) name =
      storage_find (caches w) name)) /\
  (name <> STATIC_CACHE_NAME ->
   storage_find (caches (snd (install_listener e w))) name =
   storage_find (caches w) name).
Proof.
  split.
  - intros Hne. split.
    + intros request. unfold handle_fetch.
      destruct (fetch_listener request) as [|s]; [reflexivity|].
      assert (Hs : frames name (run_strategy e s request) any_value).
      { destruct s; cbn [run_strategy].
        - apply frames_networkFirstStrategy, Hne.
        - apply frames_cacheFirstStrategy, Hne.
        - apply frames_caches_match.
        - apply frames_staleWhileRevalidateStrategy, Hne. }
      unfold bind. destruct (Hs w) as [Hf _].
      destruct (run_strategy e s request w) as [[v|error] w1]; exact Hf.
    + intros urls. apply (frames_cacheUrls e name urls Hne w).
  - intros Hne. apply (frames_install_listener e name Hne w).
Qed.

Lemma worker_writes_one_partition_witness :
  storage_find
    (caches (snd (handle_fetch icon_env icon_request stale_icon_world)))
    STATIC_CACHE_NAME =
  Some [(url icon_request, stale_response)] /\
  storage_find (caches (snd (install_listener online_env icon_world)))
    RUNTIME_CACHE_NAME =
  Some [(url icon_request, icon_response)].
Proof.
  destruct (worker_writes_one_partition icon_env STATIC_CACHE_NAME stale_icon_world)
    as [Hr _].
  destruct (worker_writes_one_partition online_env RUNTIME_CACHE_NAME icon_world)
    as [_ Hs].
  split.
  - assert (Hne : STATIC_CACHE_NAME <> RUNTIME_CACHE_NAME) by discriminate.
    rewrite (proj1 (Hr Hne) icon_request). reflexivity.
  - assert (Hne : RUNTIME_CACHE_NAME <> STATIC_CACHE_NAME) by discriminate.
    rewrite (Hs Hne). reflexivity.
Defined.

(** ** What never rejects *)

(** X8: whatever the network and the storage do, the promises of the
    install and activate steps, the prefetch, the clearing of the caches
    and the cache status never reject: every failure ends in their own
    [catch], which only logs (or, for the status, builds the error
    reply). *)
Theorem lifecycle_and_administration_never_reject (e : Env) (w : World) :
  fst (install_listener e w) = Fulfilled tt /\
  fst (activate_listener e w) = Fulfilled tt /\
  (forall urls, fst (cacheUrls e urls w) = Fulfilled tt) /\
  fst (clearAllCaches e w) = Fulfilled tt /\
  (exists reply, fst (getCacheStatus e w) = Fulfilled reply).
Proof.
  split; [|split; [|split; [|split]]].
  - unfold install_listener, bind at 1, console_log at 1, emit.
    apply try_catch_unit_fulfils. reflexivity.
  - unfold activate_listener, bind at 1, console_log at 1, emit.
    apply try_catch_unit_fulfils. reflexivity.
  - intros urls. apply try_catch_unit_fulfils. reflexivity.
  - apply try_catch_unit_fulfils. reflexivity.
  - unfold getCacheStatus, try_catch.
    match goal with |- context [match ?m w with _ => _ end] =>
      destruct (m w) as [[reply|error] w'] end.
    + exists reply. reflexivity.
    + exists (StatusError error). reflexivity.
Qed.

(** ** Clearing the caches *)

Lemma clear_deletions_run (e : Env) (names : list string) (w : World) :
  healthy e ->
  exists results,
    promise_all (map (fun cacheName => caches_delete e cacheName) names) w =
    (Fulfilled results,
     {| caches := fold_left storage_delete names (caches w);
        trace := trace w;
        clock := length names + clock w |}).
Proof.
  intros Hh. revert w. induction names as [|n names IH]; intros w.
  - exists []. cbn. rewrite world_eta. reflexivity.
  - cbn [map promise_all fold_left length].
    set (rest := promise_all (map _ names)) in *.
    unfold caches_delete. run_storage Hh.
    match goal with |- context [rest ?w1] => destruct (IH w1) as [results Hrun] end.
    rewrite Hrun. cbn [caches trace clock]. eexists.
    rewrite Nat.add_succ_r. reflexivity.
Qed.

Lemma delete_all_names (cs : CacheStorage) :
  fold_left storage_delete (storage_names cs) cs = [].
Proof.
  rewrite storage_delete_fold.
  induction cs as [|p cs IH]; [reflexivity|].
  assert (Hall : forall q, In q (p :: cs) ->
            negb (existsb (String.eqb (fst q)) (storage_names (p :: cs))) = false).
  { intros q Hq. apply negb_false_iff, existsb_exists. exists (fst q).
    split; [apply in_map, Hq | apply String.eqb_refl]. }
  clear IH. revert Hall. generalize (storage_names (p :: cs)). intros names.
  generalize (p :: cs). intros l Hall.
  induction l as [|q l IH]; [reflexivity|].
  cbn [filter]. rewrite (Hall q (or_introl eq_refl)).
  apply IH. intros q' Hq'. apply Hall. right. exact Hq'.
Qed.

Lemma clearAllCaches_run (e : Env) (w : World) :
  healthy e ->
  clearAllCaches e w =
  (Fulfilled tt,
   {| caches := [];
      trace := trace w ++ [EvConsole LLog "All caches cleared" []];
      clock := length (caches w) + S (clock w) |}).
Proof.
  intros Hh. unfold clearAllCaches, try_catch, bind at 1, caches_keys.
  run_storage Hh. unfold bind at 1.
  match goal with |- context [promise_all _ ?w1] =>
    destruct (clear_deletions_run e (storage_names (caches w)) w1 Hh) as [results Hrun]
  end.
  rewrite Hrun. cbn [caches trace clock]. unfold console_log, emit.
  cbn [caches trace clock]. rewrite delete_all_names.
  unfold storage_names. rewrite length_map. reflexivity.
Qed.

(** X9: when the storage works, once [clearAllCaches] has settled its
    promise is fulfilled, every partition is deleted, the static and the
    runtime partition included, and "All caches cleared" is logged; a
    [getCacheStatus] started after that settlement replies with no cache
    names, no details and a total size of 0.  (The message listener drops
    the promise of [clearAllCaches]: a status asked for before the
    settlement is not covered.) *)
Theorem clear_then_status_is_empty (e : Env) (w : World) :
  healthy e ->
  fst (clearAllCaches e w) = Fulfilled tt /\
  caches (snd (clearAllCaches e w)) = [] /\
  trace (snd (clearAllCaches e w)) = trace w ++ [EvConsole LLog "All caches cleared" []] /\
  fst (getCacheStatus e (snd (clearAllCaches e w))) = Fulfilled (StatusOk empty_status) /\
  caches (snd (getCacheStatus e (snd (clearAllCaches e w)))) = [].
Proof.
  intros Hh. rewrite clearAllCaches_run by exact Hh. cbn [fst snd caches trace].
  split; [reflexivity|]. split; [reflexivity|]. split; [reflexivity|].
  unfold getCacheStatus, try_catch, bind, caches_keys.
  run_storage Hh. cbn. split; reflexivity.
Qed.

Lemma clear_then_status_is_empty_witness :
  healthy offline_env /\
  caches (snd (clearAllCaches offline_env two_partition_world)) = [] /\
  fst (getCacheStatus offline_env (snd (clearAllCaches offline_env two_partition_world))) =
    Fulfilled (StatusOk empty_status).
Proof.
  split; [exact offline_env_healthy|].
  destruct (clear_then_status_is_empty offline_env two_partition_world
              offline_env_healthy) as [_ [Hc [_ [Hs _]]]].
  split; [exact Hc | exact Hs].
Defined.

(** ** The static partition after the install step *)

Lemma append_injective (p a b : string) :
  String.append p a = String.append p b -> a = b.
Proof.
  induction p as [|c p IH]; cbn; intros H; [exact H|].
  injection H as H. apply IH, H.
Qed.

Lemma resolved_assets_NoDup (e : Env) : NoDup (map (resolve e) STATIC_ASSETS).
Proof.
  change (map (resolve e) STATIC_ASSETS)
    with (map (String.append (origin e)) STATIC_ASSETS).
  assert (Hnd : NoDup STATIC_ASSETS).
  { unfold STATIC_ASSETS. repeat constructor; simpl; intuition discriminate. }
  revert Hnd. generalize STATIC_ASSETS. intros l.
  induction 1 as [|a l Hnin _ IH]; cbn [map]; constructor; [|exact IH].
  intros Hin. apply in_map_iff in Hin as [b [Hb Hin]].
  apply append_injective in Hb. subst b. contradiction.
Qed.

Lemma filter_none {A : Type} (f : A -> bool) (l : list A) :
  (forall x, In x l -> f x = false) -> filter f l = [].
Proof.
  induction l as [|x l IH]; intros H; [reflexivity|].
  cbn [filter]. rewrite (H x (or_introl eq_refl)).
  apply IH. intros y Hy. apply H. right. exact Hy.
Qed.

(** Storing a batch with distinct keys puts the batch, in its order, after
    the entries of the partition that the batch does not replace. *)
Lemma store_batch_spec (batch : list (string * Response)) (c : Cache) :
  NoDup (map fst batch) ->
  store_batch batch c = filter (fun p => negb (in_batch batch p)) c ++ batch.
Proof.
  unfold store_batch, in_batch. revert c.
  induction batch as [|[k r] batch IH]; intros c Hnd.
  - cbn. rewrite app_nil_r. symmetry. apply forallb_filter_id.
    apply forallb_forall. reflexivity.
  - inversion Hnd as [|x l Hnin Hnd']; subst.
    cbn [fold_left fst snd]. rewrite IH by exact Hnd'.
    unfold cache_insert. rewrite filter_app, filter_filter. cbn [filter fst].
    assert (Hk : existsb (String.eqb k) (map fst batch) = false).
    { destruct (existsb _ _) eqn:E; [|reflexivity].
      apply existsb_exists in E as [k' [Hk' He]]. apply String.eqb_eq in He.
      subst k'. contradiction. }
    rewrite Hk. cbn [negb app]. rewrite <- app_assoc. cbn [app]. f_equal.
    apply filter_ext. intros p. cbn [map fst existsb].
    rewrite negb_orb. reflexivity.
Qed.

Lemma store_batch_idempotent (batch : list (string * Response)) (c : Cache) :
  NoDup (map fst batch) ->
  store_batch batch (store_batch batch c) = store_batch batch c.
Proof.
  intros Hnd. rewrite !store_batch_spec by exact Hnd.
  rewrite filter_app, filter_filter.
  rewrite (filter_none _ batch).
  - rewrite app_nil_r. f_equal. apply filter_ext. intros p.
    destruct (negb (in_batch batch p)); reflexivity.
  - intros p Hp. apply negb_false_iff. unfold in_batch. apply existsb_exists.
    exists (fst p). split; [apply in_map, Hp | apply String.eqb_refl].
Qed.

Lemma cache_lookup_In (c : Cache) (k : string) (r : Response) :
  NoDup (map fst c) -> In (k, r) c -> cache_lookup c k = Some r.
Proof.
  induction c as [|[k' r'] c IH]; intros Hnd Hin; [destruct Hin|].
  inversion Hnd as [|x l Hnin Hnd']; subst. cbn [cache_lookup].
  destruct Hin as [H | Hin].
  - injection H as -> ->. rewrite String.eqb_refl. reflexivity.
  - destruct (String.eqb_spec k' k) as [-> | _]; [|apply IH; assumption].
    exfalso. apply Hnin. change k with (fst (k, r)). apply in_map, Hin.
Qed.

Lemma store_batch_lookup (batch : list (string * Response)) (c : Cache) (k : string)
  (r : Response) :
  NoDup (map fst batch) -> In (k, r) batch ->
  cache_lookup (store_batch batch c) k = Some r.
Proof.
  intros Hnd Hin. rewrite store_batch_spec by exact Hnd. rewrite cache_lookup_app.
  assert (Hnone : cache_lookup (filter (fun p => negb (in_batch batch p)) c) k = None).
  { induction c as [|[k' r'] c IH]; [reflexivity|]. cbn [filter].
    destruct (negb (in_batch batch (k', r'))) eqn:E; [|exact IH].
    cbn [cache_lookup]. destruct (String.eqb_spec k' k) as [-> | _]; [|exact IH].
    apply negb_true_iff in E. unfold in_batch in E. cbn [fst] in E.
    assert (Hy : existsb (String.eqb k) (map fst batch) = true).
    { apply existsb_exists. exists k. split; [|apply String.eqb_refl].
      change k with (fst (k, r)). apply in_map, Hin. }
    congruence. }
  rewrite Hnone. apply cache_lookup_In; assumption.
Qed.

Lemma batch_outcome_In (e : Env) (urls : list string) (batch : list (string * Response))
  (a : string) (r : Response) :
  batch_outcome e urls = Fulfilled batch ->
  In a urls -> network e (resolve e a) = Some r ->
  In (resolve e a, r) batch.
Proof.
  revert batch. induction urls as [|u urls IH]; intros batch Hb Hin Hnet; [destruct Hin|].
  cbn [batch_outcome] in Hb.
  destruct (network e (resolve e u)) as [r'|] eqn:En; [|discriminate].
  destruct (ok r'); [|discriminate].
  destruct (batch_outcome e urls) as [l|]; [|discriminate].
  injection Hb as <-. destruct Hin as [-> | Hin].
  - left. congruence.
  - right. apply IH; auto.
Qed.

Lemma storage_match_partition (cs : CacheStorage) (name k : string) (r : Response) :
  cache_lookup (partition_of cs name) k = Some r ->
  exists r', storage_match cs k = Some r'.
Proof.
  unfold partition_of. induction cs as [|[n c] cs IH]; cbn [storage_find storage_match].
  - discriminate.
  - intros H. destruct (cache_lookup c k) as [r0|] eqn:El; [eauto|].
    destruct (String.eqb n name); [congruence | apply IH, H].
Qed.

(** X10: when the storage works and every declared asset is fetched with
    an ok response, the static partition holds, after the install step,
    the fetched response of every declared asset under its resolved URL;
    so the cache-only strategy then answers a request for any declared
    asset with a response, never with undefined. *)
Theorem install_stores_every_asset (e : Env) (w : World) (asset : string)
  (r : Response) :
  healthy e ->
  Forall (fetch_succeeds e) STATIC_ASSETS ->
  In asset STATIC_ASSETS ->
  network e (resolve e asset) = Some r ->
  cache_lookup
    (partition_of (caches (snd (install_listener e w))) STATIC_CACHE_NAME)
    (resolve e asset) = Some r /\
  exists r',
    fst (cacheOnlyStrategy e (asset_request e asset) (snd (install_listener e w))) =
    Fulfilled (VResponse r').
Proof.
  intros Hh Hall Hin Hnet.
  destruct (batch_outcome_succeeds e STATIC_ASSETS Hall) as [batch [Hb Hkeys]].
  assert (Hnd : NoDup (map fst batch)).
  { rewrite Hkeys. apply resolved_assets_NoDup. }
  assert (Hstored :
    cache_lookup
      (partition_of (caches (snd (install_listener e w))) STATIC_CACHE_NAME)
      (resolve e asset) = Some r).
  { rewrite install_listener_run by exact Hh. rewrite Hb. cbn [snd caches].
    rewrite partition_of_update by (rewrite storage_find_open; discriminate).
    apply store_batch_lookup; [exact Hnd|].
    apply (batch_outcome_In e STATIC_ASSETS); assumption. }
  split; [exact Hstored|].
  apply storage_match_partition in Hstored as [r' Hr'].
  exists r'. unfold cacheOnlyStrategy.
  rewrite caches_match_healthy by apply Hh. cbn [fst asset_request url].
  rewrite Hr'. reflexivity.
Qed.

Lemma online_assets_succeed : Forall (fetch_succeeds online_env) STATIC_ASSETS.
Proof. unfold STATIC_ASSETS. repeat constructor; eexists; split; reflexivity. Qed.

Lemma install_stores_every_asset_witness :
  cache_lookup
    (partition_of (caches (snd (install_listener online_env empty_world)))
       STATIC_CACHE_NAME)
    "https://app.example/manifest.json" =
  Some {| status := 200; statusText := "OK"; headers := [];
          body := "https://app.example/manifest.json" |}.
Proof.
  refine (proj1 (install_stores_every_asset online_env empty_world "/manifest.json" _
                   online_env_healthy online_assets_succeed _ eq_refl)).
  right. right. left. reflexivity.
Defined.

Lemma storage_update_twice (cs : CacheStorage) (name : string) (f g : Cache -> Cache) :
  storage_update (storage_update cs name f) name g =
  storage_update cs name (fun c => g (f c)).
Proof.
  induction cs as [|[n c] cs IH]; [reflexivity|]. cbn [storage_update].
  destruct (String.eqb n name) eqn:E; cbn [storage_update]; rewrite E;
    [reflexivity | rewrite IH; reflexivity].
Qed.

Lemma storage_update_ext (cs : CacheStorage) (name : string) (f g : Cache -> Cache) :
  (forall c, f c = g c) -> storage_update cs name f = storage_update cs name g.
Proof.
  intros H. induction cs as [|[n c] cs IH]; [reflexivity|]. cbn [storage_update].
  destruct (String.eqb n name); [rewrite H | rewrite IH]; reflexivity.
Qed.

(** X11: when the storage works and every declared asset is fetched with
    an ok response, running the install step a second time leaves the
    storage exactly as the first run left it: no entry is duplicated and
    none moves. *)
Theorem install_is_idempotent (e : Env) (w : World) :
  healthy e ->
  Forall (fetch_succeeds e) STATIC_ASSETS ->
  caches (snd (install_listener e (snd (install_listener e w)))) =
  caches (snd (install_listener e w)).
Proof.
  intros Hh Hall.
  destruct (batch_outcome_succeeds e STATIC_ASSETS Hall) as [batch [Hb Hkeys]].
  assert (Hnd : NoDup (map fst batch)).
  { rewrite Hkeys. apply resolved_assets_NoDup. }
  rewrite !install_listener_run by exact Hh. rewrite Hb. cbn [snd caches].
  set (cs := storage_open (caches w) STATIC_CACHE_NAME).
  assert (Hex : storage_find (storage_update cs STATIC_CACHE_NAME (store_batch batch))
                  STATIC_CACHE_NAME <> None).
  { rewrite storage_find_update. subst cs. rewrite storage_find_open. discriminate. }
  destruct (storage_find _ STATIC_CACHE_NAME) as [c|] eqn:Ef in Hex; [|congruence].
  rewrite (storage_open_existing _ _ _ Ef), storage_update_twice.
  apply storage_update_ext. intros c'. apply store_batch_idempotent, Hnd.
Qed.

Lemma install_is_idempotent_witness :
  caches (snd (install_listener online_env
                 (snd (install_listener online_env icon_world)))) =
  caches (snd (install_listener online_env icon_world)).
Proof.
  exact (install_is_idempotent online_env icon_world online_env_healthy
           online_assets_succeed).
Defined.

(** ** Activating again *)

Lemma swept_names_after_sweep (cs : CacheStorage) :
  swept_names (filter survives cs) = [].
Proof.
  unfold swept_names, storage_names. apply filter_none.
  intros n Hn. apply in_map_iff in Hn as [p [<- Hp]].
  apply filter_In in Hp as [_ Hs]. unfold survives in Hs.
  apply negb_true_iff, Hs.
Qed.

Lemma filter_idempotent {A : Type} (f : A -> bool) (l : list A) :
  filter f (filter f l) = filter f l.
Proof.
  rewrite filter_filter. apply filter_ext. intros x. destruct (f x); reflexivity.
Qed.

(** X12: when the storage works, activating a second time deletes nothing:
    the storage stays as the first activation left it, no deletion is
    logged, and the clients are claimed again. *)
Theorem activate_is_idempotent (e : Env) (w : World) :
  healthy e ->
  caches (snd (activate_listener e (snd (activate_listener e w)))) =
    caches (snd (activate_listener e w)) /\
  trace (snd (activate_listener e (snd (activate_listener e w)))) =
    trace (snd (activate_listener e w)) ++ [activating_log; EvClientsClaim].
Proof.
  intros Hh. rewrite (activate_listener_run e _ Hh).
  rewrite (activate_listener_run e w Hh). cbn [snd caches trace].
  rewrite filter_idempotent, swept_names_after_sweep. split; reflexivity.
Qed.

Lemma activate_is_idempotent_witness :
  healthy offline_env /\
  storage_names
    (caches (snd (activate_listener offline_env
                    (snd (activate_listener offline_env upgrade_world))))) =
  [STATIC_CACHE_NAME; RUNTIME_CACHE_NAME; "other-app-cache"].
Proof.
  split; [exact offline_env_healthy|].
  rewrite (proj1 (activate_is_idempotent offline_env upgrade_world offline_env_healthy)).
  reflexivity.
Defined.

(** ** What a prefetch leaves alone *)

Lemma resolve_plain (e : Env) (u : string) :
  plain_path u = true -> resolve e u = String.append (origin e) u.
Proof.
  unfold plain_path, resolve. intros H.
  repeat (apply andb_true_iff in H as [H _]). rewrite H. reflexivity.
Qed.

Lemma prefetch_step_other (e : Env) (cs : CacheStorage) (u k : string) :
  (resolve e u = k -> fetch_fails e u) ->
  runtime_lookup (prefetch_step e cs u) k = runtime_lookup cs k.
Proof.
  intros Hk. unfold prefetch_step.
  destruct (network e (resolve e u)) as [r|] eqn:En; [|reflexivity].
  destruct (ok r) eqn:Eok; [|reflexivity].
  assert (Hne : resolve e u <> k).
  { intros H. apply Hk in H. apply H in En. congruence. }
  unfold runtime_lookup, partition_of. rewrite storage_find_update.
  destruct (storage_find cs RUNTIME_CACHE_NAME) as [c|]; [|reflexivity].
  cbn [option_map]. apply cache_lookup_insert_other, Hne.
Qed.

(** X13: when the storage works and the URLs of the batch are plain
    root-relative paths, a prefetch changes the runtime partition only
    under the URLs it fetched with an ok response: under any other URL,
    among them the URLs of the batch whose fetch failed or was not ok, the
    runtime partition holds afterwards what it held before, so a failed
    prefetch never evicts an entry. *)
Theorem cacheUrls_keeps_other_entries (e : Env) (urls : list string) (w : World)
  (k : string) :
  healthy e ->
  forallb plain_path urls = true ->
  (forall u, In u urls -> String.append (origin e) u = k -> fetch_fails e u) ->
  runtime_lookup (caches (snd (cacheUrls e urls w))) k = runtime_lookup (caches w) k.
Proof.
  intros Hh Hplain Hk. rewrite (proj2 (cacheUrls_run e urls w Hh)).
  assert (Hopen : runtime_lookup (storage_open (caches w) RUNTIME_CACHE_NAME) k =
                  runtime_lookup (caches w) k).
  { unfold runtime_lookup at 1, partition_of at 1. rewrite storage_find_open.
    reflexivity. }
  rewrite <- Hopen. generalize (storage_open (caches w) RUNTIME_CACHE_NAME).
  induction urls as [|u urls IH]; intros cs; [reflexivity|].
  cbn [forallb] in Hplain. apply andb_true_iff in Hplain as [Hu Hplain].
  cbn [fold_left]. rewrite IH.
  - apply prefetch_step_other. rewrite (resolve_plain e u Hu).
    apply Hk. left. reflexivity.
  - exact Hplain.
  - intros u' Hu'. apply Hk. right. exact Hu'.
Qed.

Lemma cacheUrls_keeps_other_entries_witness :
  healthy offline_env /\
  forallb plain_path ["/icons/icon-192x192.png"] = true /\
  runtime_lookup
    (caches (snd (cacheUrls offline_env ["/icons/icon-192x192.png"] icon_world)))
    (url icon_request) = Some icon_response.
Proof.
  split; [exact offline_env_healthy|]. split; [reflexivity|].
  rewrite (cacheUrls_keeps_other_entries offline_env ["/icons/icon-192x192.png"]
             icon_world (url icon_request) offline_env_healthy eq_refl).
  - reflexivity.
  - intros u _ _ r H. discriminate H.
Defined.

(** ** Notifications and background sync *)

Lemma or_default_truthy (v : JsValue) (fallback : Json) :
  js_truthy (Some fallback) = true -> js_truthy (Some (or_default v fallback)) = true.
Proof.
  intros Hf. unfold or_default. destruct v as [j|]; [|exact Hf].
  destruct (js_truthy (Some j)) eqn:E; [exact E | exact Hf].
Qed.

Lemma or_default_keeps (v : JsValue) (fallback : Json) :
  js_truthy v = true -> Some (or_default v fallback) = v.
Proof.
  unfold or_default. destruct v as [j|]; [|discriminate]. intros ->. reflexivity.
Qed.

Lemma or_default_falls_back (v : JsValue) (fallback : Json) :
  js_truthy v = false -> or_default v fallback = fallback.
Proof. unfold or_default. destruct v as [j|]; [intros ->|]; reflexivity. Qed.

Lemma or_default_kept_or (v : JsValue) (fallback : Json) :
  kept_or v fallback (or_default v fallback).
Proof. split; [apply or_default_keeps | apply or_default_falls_back]. Qed.

(** X14: for every parsed payload other than null the push listener logs
    the payload and shows exactly one notification, with the fixed icon
    and badge.  Its title, body, tag, requireInteraction and actions are
    those of the payload where the payload has a truthy one, and otherwise
    the defaults: "SecurePWA", "New notification from SecurePWA",
    "default", false and the empty list; so title, body and tag are never
    undefined, null or empty.  Without data nothing is shown, and a null
    payload makes the listener throw after the log. *)
Theorem push_listener_defaults (data : Json) :
  data <> JNull ->
  exists title options,
    push_listener (Parsed data) =
      ([ActConsole LLog "Push notification received:";
        ActShowNotification title options], Fulfilled tt) /\
    kept_or (property data "title") (JStr "SecurePWA") title /\
    kept_or (property data "body") (JStr "New notification from SecurePWA")
      (opt_body options) /\
    kept_or (property data "tag") (JStr "default") (opt_tag options) /\
    kept_or (property data "requireInteraction") (JBool false)
      (opt_requireInteraction options) /\
    kept_or (property data "actions") (JArr []) (opt_actions options) /\
    opt_icon options = "/icons/icon-192x192.png" /\
    opt_badge options = "/icons/badge-72x72.png" /\
    js_truthy (Some title) = true /\
    js_truthy (Some (opt_body options)) = true /\
    js_truthy (Some (opt_tag options)) = true /\
    push_listener NoData = ([], Fulfilled tt) /\
    push_listener (Parsed JNull) =
      ([ActConsole LLog "Push notification received:"], Rejected "TypeError").
Proof.
  intros Hnn. eexists _, _. split.
  - destruct data; [contradiction | reflexivity ..].
  - cbn [opt_body opt_tag opt_icon opt_badge opt_requireInteraction opt_actions].
    repeat (split; [apply or_default_kept_or|]).
    split; [reflexivity|]. split; [reflexivity|].
    split; [apply or_default_truthy; reflexivity|].
    split; [apply or_default_truthy; reflexivity|].
    split; [apply or_default_truthy; reflexivity|].
    split; reflexivity.
Qed.

Lemma push_listener_defaults_witness :
  JObj [("title", JStr ""); ("body", JStr "Invoice paid")] <> JNull /\
  exists title options,
    push_listener (Parsed (JObj [("title", JStr ""); ("body", JStr "Invoice paid")])) =
      ([ActConsole LLog "Push notification received:";
        ActShowNotification title options], Fulfilled tt) /\
    title = JStr "SecurePWA" /\
    opt_body options = JStr "Invoice paid" /\
    opt_tag options = JStr "default".
Proof.
  assert (Hnn : JObj [("title", JStr ""); ("body", JStr "Invoice paid")] <> JNull)
    by discriminate.
  split; [exact Hnn|].
  destruct (push_listener_defaults _ Hnn)
    as [title [options [Hrun [[_ Htitle] [[Hbody _] [[_ Htag] _]]]]]].
  exists title, options. split; [exact Hrun|].
  split; [apply Htitle; reflexivity|].
  split; [|apply Htag; reflexivity].
  specialize (Hbody eq_refl). injection Hbody as Hbody. exact Hbody.
Defined.

Lemma urlToOpen_truthy (data : JsValue) : js_truthy (Some (urlToOpen data)) = true.
Proof. unfold urlToOpen. apply or_default_truthy. reflexivity. Qed.

Lemma focus_or_open_none (origin : string) (target : Json) (clientList : list Client) :
  (forall c, In c clientList -> includes (client_url c) origin = false) ->
  focus_or_open origin target clientList = [ActOpenWindow target].
Proof.
  induction clientList as [|c l IH]; intros H; [reflexivity|].
  cbn [focus_or_open]. rewrite (H c (or_introl eq_refl)).
  apply IH. intros c' Hc'. apply H. right. exact Hc'.
Qed.

Lemma focus_or_open_first (origin : string) (target : Json)
  (before after : list Client) (c : Client) :
  (forall b, In b before -> includes (client_url b) origin = false) ->
  includes (client_url c) origin = true ->
  focus_or_open origin target (before ++ c :: after) =
  [ActFocus (client_id c); ActPostMessage (client_id c) (NotificationClick target)].
Proof.
  intros Hb Hc. induction before as [|b l IH]; cbn [app focus_or_open].
  - rewrite Hc. reflexivity.
  - rewrite (Hb b (or_introl eq_refl)). apply IH.
    intros b' Hb'. apply Hb. right. exact Hb'.
Qed.

Lemma urlToOpen_kept_or (data : JsValue) :
  kept_or
    match data with
    | Some value => property value "url"
    | None => None
    end
    (JStr "/") (urlToOpen data).
Proof.
  destruct data as [[]|]; apply or_default_kept_or.
Qed.

(** X15: a click on a notification closes it and then does exactly one of
    two things.  When the URL of some window client contains the origin,
    the first such client is focused and sent the URL to open, and no
    window is opened; when none does, a window is opened for that URL and
    no client is focused.  The URL to open is the [url] of the data of the
    notification when there is data with a truthy [url], and "/" otherwise
    (no data, null data, or a missing or falsy [url]), so it is never
    undefined or empty.  When listing the clients fails, the promise handed
    to the platform rejects and nothing is focused or opened. *)
Theorem notificationclick_focuses_or_opens (origin : string) (data : JsValue)
  (clientList : list Client) :
  (forall value,
     data = Some value -> js_truthy (property value "url") = true ->
     Some (urlToOpen data) = property value "url") /\
  (forall value,
     data = Some value -> js_truthy (property value "url") = false ->
     urlToOpen data = JStr "/") /\
  (data = None \/ data = Some JNull -> urlToOpen data = JStr "/") /\
  js_truthy (Some (urlToOpen data)) = true /\
  (forall before c after,
     clientList = before ++ c :: after ->
     (forall b, In b before -> includes (client_url b) origin = false) ->
     includes (client_url c) origin = true ->
     notificationclick_listener origin data (Fulfilled clientList) =
       ([ActConsole LLog "Notification clicked:"; ActCloseNotification;
         ActFocus (client_id c);
         ActPostMessage (client_id c) (NotificationClick (urlToOpen data))],
        Fulfilled tt)) /\
  ((forall c, In c clientList -> includes (client_url c) origin = false) ->
   notificationclick_listener origin data (Fulfilled clientList) =
     ([ActConsole LLog "Notification clicked:"; ActCloseNotification;
       ActOpenWindow (urlToOpen data)], Fulfilled tt)) /\
  (forall error,
     notificationclick_listener origin data (Rejected error) =
       ([ActConsole LLog "Notification clicked:"; ActCloseNotification],
        Rejected error)).
Proof.
  split; [|split; [|split; [|split; [|split; [|split]]]]].
  - intros value -> Ht. apply (proj1 (urlToOpen_kept_or (Some value))), Ht.
  - intros value -> Hf. apply (proj2 (urlToOpen_kept_or (Some value))), Hf.
  - intros [-> | ->]; reflexivity.
  - apply urlToOpen_truthy.
  - intros before c after -> Hb Hc. unfold notificationclick_listener.
    rewrite focus_or_open_first by assumption. reflexivity.
  - intros Hnone. unfold notificationclick_listener.
    rewrite focus_or_open_none by assumption. reflexivity.
  - reflexivity.
Qed.

Lemma notificationclick_focuses_or_opens_witness :
  notificationclick_listener "https://app.example"
    (Some (JObj [("url", JStr "/invoices/42")])) (Fulfilled sample_clients) =
  ([ActConsole LLog "Notification clicked:"; ActCloseNotification;
    ActFocus 2; ActPostMessage 2 (NotificationClick (JStr "/invoices/42"))],
   Fulfilled tt).
Proof.
  destruct (notificationclick_focuses_or_opens "https://app.example"
              (Some (JObj [("url", JStr "/invoices/42")])) sample_clients)
    as [_ [_ [_ [_ [Hfocus _]]]]].
  rewrite (Hfocus [ {| client_id := 1; client_url := "https://other.example/page" |} ]
             {| client_id := 2; client_url := "https://app.example/dashboard" |}
             [ {| client_id := 3; client_url := "https://app.example/settings" |} ]).
  - reflexivity.
  - reflexivity.
  - intros b [<- | []]. reflexivity.
  - reflexivity.
Defined.

Lemma refresh_messages_length (now : nat -> Z) (k : nat) (clientList : list Client) :
  length (refresh_messages now k clientList) = length clientList.
Proof.
  revert k. induction clientList as [|c l IH]; intros k; [reflexivity|].
  cbn [refresh_messages length]. rewrite IH. reflexivity.
Qed.

Lemma refresh_messages_nth (now : nat -> Z) (k i : nat) (clientList : list Client)
  (c : Client) :
  nth_error clientList i = Some c ->
  nth_error (refresh_messages now k clientList) i =
  Some (ActPostMessage (client_id c) (RefreshSession (now (k + i)))).
Proof.
  revert k i. induction clientList as [|c' l IH]; intros k i H.
  - destruct i; discriminate H.
  - destruct i as [|i]; cbn [refresh_messages nth_error] in *.
    + injection H as ->. rewrite Nat.add_0_r. reflexivity.
    + rewrite (IH (S k) i H). rewrite Nat.add_succ_r. reflexivity.
Qed.

(** X16: a background sync posts messages only for the tag
    session-refresh; for any other tag it only logs the sync and hands the
    platform no promise.  For that tag, when the platform lists the
    clients, the listener logs the sync, then sends every listed client
    exactly one REFRESH_SESSION message, in the order of the list, the
    message of the client at index i carrying the time of the i-th reading
    of the clock, and then logs that the requests were sent: these are all
    its actions.  The promise of the refresh never rejects: when listing
    the clients fails, the failure is logged and no message is posted. *)
Theorem sync_listener_refreshes_clients (now : nat -> Z) (tag : string)
  (matchAll : Outcome (list Client)) :
  (tag <> "session-refresh" ->
   sync_listener now tag matchAll =
     ([ActConsole LLog "Background sync triggered:"], None)) /\
  snd (sync_listener now "session-refresh" matchAll) = Some (Fulfilled tt) /\
  (forall clientList, matchAll = Fulfilled clientList ->
     length (fst (sync_listener now "session-refresh" matchAll)) =
       2 + length clientList /\
     nth_error (fst (sync_listener now "session-refresh" matchAll)) 0 =
       Some (ActConsole LLog "Background sync triggered:") /\
     (forall i c, nth_error clientList i = Some c ->
        nth_error (fst (sync_listener now "session-refresh" matchAll)) (S i) =
        Some (ActPostMessage (client_id c) (RefreshSession (now i)))) /\
     nth_error (fst (sync_listener now "session-refresh" matchAll))
       (S (length clientList)) =
       Some (ActConsole LLog "Session refresh request sent to clients")) /\
  (forall error, matchAll = Rejected error ->
     fst (sync_listener now "session-refresh" matchAll) =
     [ActConsole LLog "Background sync triggered:";
      ActConsole LError "Failed to refresh session:"]).
Proof.
  split; [|split; [|split]].
  - intros Hne. unfold sync_listener.
    destruct (String.eqb_spec tag "session-refresh"); [contradiction | reflexivity].
  - destruct matchAll; reflexivity.
  - intros clientList ->.
    change (fst (sync_listener now "session-refresh" (Fulfilled clientList)))
      with (ActConsole LLog "Background sync triggered:" ::
            (refresh_messages now 0 clientList ++
             [ActConsole LLog "Session refresh request sent to clients"])).
    cbn [length nth_error].
    split; [rewrite length_app, refresh_messages_length; cbn [length]; lia|].
    split; [reflexivity|]. split.
    + intros i c Hi. rewrite nth_error_app1.
      * apply (refresh_messages_nth now 0 i clientList c Hi).
      * rewrite refresh_messages_length. apply nth_error_Some. congruence.
    + rewrite nth_error_app2 by (rewrite refresh_messages_length; lia).
      rewrite refresh_messages_length, Nat.sub_diag. reflexivity.
  - intros error ->. reflexivity.
Qed.
